(** * wikiGDrive: the quota limiter and the dirty-file download loop

    A shallow embedding of [src/google/QuotaLimiter.js] (class
    [QuotaLimiter]) and of [DownloadPlugin.handleDirtyFiles], with the
    properties of the specification stated and proved over it.

    Conventions of the embedding.
    - The clock.  The source reads [+new Date() / 1000], a number of
      seconds with a millisecond fraction.  Every operation that reads the
      clock takes the reading as an argument [now], an integer number of
      MILLISECONDS; a stored [ts] is in milliseconds as well.  A source
      comparison against a number of seconds is scaled by 1000:
      [now - ts < DELAY_AFTER_ERROR] becomes [now - ts <? ms DELAY_AFTER_ERROR].
      Time is exact: the rounding of the floating-point division by 1000
      is not modelled.
    - [queries] and [seconds] are integers ([Z]); [Math.floor (x / 2)] is
      [x / 2] on [Z], which rounds towards minus infinity like [Math.floor].
      A JavaScript number is a double: it holds every integer up to 2^53
      in magnitude and, beyond, only the multiples of 2, then of 4, and so
      on; [queries + 1] is rounded accordingly ([js_succ]).
    - A property read of [undefined] ([this.currentLimit.ts] before any
      limit is set) throws a TypeError: such operations return [option],
      [None] standing for the throw.
    - A job's callable is a handle ([nat]); dispatching it with
      [process.nextTick] appends the handle to the list a tick returns. *)

From Stdlib Require Import ZArith Lia.
From stdpp Require Import gmap strings list.

Local Open Scope Z_scope.

(** ** Data *)

Module Job.
(** [{ done, func, ts }]: [ts] is absent until the job is started,
    [func] is absent on a job restored from a saved list. *)
Record job : Type := mkJob { done : bool; func : option nat; ts : option Z }.

(** JavaScript truthiness of [job.ts]: a number other than 0. *)
Definition truthy_ts (j : job) : bool :=
  match ts j with
  | Some x => negb (x =? 0)
  | None => false
  end.

Definition start (now : Z) (j : job) : job := mkJob (done j) (func j) (Some now).
End Job.

Module Limit.
(** [{ queries, seconds, ts }], the current rate window. *)
Record limit : Type := mkLimit { queries : Z; seconds : Z; ts : Z }.
End Limit.

Module QuotaLimiter.

Definition CONCURRENCY : Z := 16.
Definition DELAY_AFTER_ERROR : Z := 5.

(** Seconds to clock units. *)
Definition ms (s : Z) : Z := 1000 * s.

Record limiter : Type := mkLimiter {
  jobs : list Job.job;
  running : Z;
  currentLimit : option Limit.limit;
  initialLimit : option (Z * Z)
}.

Definition with_jobs (st : limiter) (js : list Job.job) : limiter :=
  mkLimiter js (running st) (currentLimit st) (initialLimit st).
Definition with_running (st : limiter) (r : Z) : limiter :=
  mkLimiter (jobs st) r (currentLimit st) (initialLimit st).
Definition with_currentLimit (st : limiter) (l : Limit.limit) : limiter :=
  mkLimiter (jobs st) (running st) (Some l) (initialLimit st).
Definition with_initialLimit (st : limiter) (q s : Z) : limiter :=
  mkLimiter (jobs st) (running st) (currentLimit st) (Some (q, s)).

(** [constructor(initialJobs = [])]; the two timers are the events
    [Tick] and [Speedup] below. *)
Definition new (initialJobs : list Job.job) : limiter := mkLimiter initialJobs 0 None None.

(** ** Rate window updates *)

Definition setLimit (queries seconds now : Z) (st : limiter) : bool * limiter :=
  if seconds <=? 0 then (false, st)
  else if queries <=? 0 then (false, st)
  else match currentLimit st with
       | Some l =>
           if now - Limit.ts l <? ms DELAY_AFTER_ERROR then (false, st)
           else (true, with_currentLimit st (Limit.mkLimit queries seconds now))
       | None => (true, with_currentLimit st (Limit.mkLimit queries seconds 0))
       end.

Definition setInitialLimit (queries seconds now : Z) (st : limiter) : limiter :=
  (setLimit queries seconds now (with_initialLimit st queries seconds)).2.

(** The proposal of [slowdown], before [setLimit] judges it. *)
Definition slowdownLimits (l : Limit.limit) : Z * Z :=
  if 1 <? Limit.seconds l
  then (Limit.queries l / 2, Limit.seconds l / 2)
  else (Limit.queries l / 2, 1).

(** The result carries what [setLimit] returned. *)
Definition slowdown (now : Z) (st : limiter) : option (bool * limiter) :=
  match currentLimit st with
  | None => None
  | Some l => let nl := slowdownLimits l in Some (setLimit nl.1 nl.2 now st)
  end.

(** [x + 1] as JavaScript computes it on an integer [x] that is a number.
    The sum is exact while it is at most 2^53 in magnitude.  Beyond, up
    to 2^54, the numbers are 2 apart and the sum lies half way between [x]
    and [x + 2]: it is rounded to the one whose significand [x / 2] is
    even.  From 2^54 on the numbers are 4 or more apart and the sum is
    rounded back to [x]. *)
Definition js_succ (x : Z) : Z :=
  if Z.abs (x + 1) <=? 2 ^ 53 then x + 1
  else if 2 ^ 54 <=? Z.abs x then x
  else if Z.even (x / 2) then x
  else x + 2.

Definition speedup (now : Z) (st : limiter) : option (bool * limiter) :=
  match currentLimit st with
  | None => None
  | Some l => Some (setLimit (js_succ (Limit.queries l)) (Limit.seconds l) now st)
  end.

(** ** The queue *)

Definition newJob (func : nat) : Job.job := Job.mkJob false (Some func) None.

Definition addJob (func : nat) (st : limiter) : limiter :=
  with_jobs st (jobs st ++ [newJob func]).

(** [job => !job.ts || job.ts >= minTime] *)
Definition keeps (minTime : Z) (j : Job.job) : bool :=
  negb (Job.truthy_ts j) ||
  match Job.ts j with Some x => minTime <=? x | None => false end.

Definition removeOlderThan (minTime : Z) (st : limiter) : limiter :=
  with_jobs st (List.filter (keeps minTime) (jobs st)).

(** [job => !!job.ts && (now - job.ts) < limit.seconds] *)
Definition inWindow (now : Z) (l : Limit.limit) (j : Job.job) : bool :=
  Job.truthy_ts j &&
  match Job.ts j with Some x => now - x <? ms (Limit.seconds l) | None => false end.

Definition quotaUsed (now : Z) (l : Limit.limit) (js : list Job.job) : Z :=
  Z.of_nat (length (List.filter (inWindow now l) js)).

Definition calculateAvailableQuota (now : Z) (st : limiter) : option Z :=
  match currentLimit st with
  | None => None
  | Some l =>
      let used := quotaUsed now l (jobs st) in
      Some (if Limit.queries l - used <? CONCURRENCY
            then Limit.queries l - used else CONCURRENCY)
  end.

(** [job => !job.ts && job.func] *)
Definition notStarted (j : Job.job) : bool :=
  negb (Job.truthy_ts j) && bool_decide (is_Some (Job.func j)).

(** [this.jobs.find (...)] followed by [notStartedJob.ts = now]: the
    first matching job is stamped in place; the result also carries its
    callable. *)
Fixpoint startFirst (now : Z) (js : list Job.job) : option (list Job.job * nat) :=
  match js with
  | [] => None
  | j :: rest =>
      match (if notStarted j then Job.func j else None) with
      | Some f => Some (Job.start now j :: rest, f)
      | None =>
          match startFirst now rest with
          | Some (rest', f) => Some (j :: rest', f)
          | None => None
          end
      end
  end.

(** The [while (availableQuota > 0)] loop; [quota] is the integer
    [availableQuota], counted down by one each round. *)
Fixpoint startJobs (quota : nat) (now : Z) (st : limiter) (dispatched : list nat)
  : limiter * list nat :=
  match quota with
  | O => (st, dispatched)
  | S quota' =>
      match startFirst now (jobs st) with
      | None => (st, dispatched)
      | Some (js, f) =>
          startJobs quota' now
                (with_running (with_jobs st js) (running st + 1))
                (dispatched ++ [f])
      end
  end.

(** [this.currentLimit.ts] is read before [maxLimiterSeconds] is computed,
    so the limit is present there and [maxLimiterSeconds] is its
    [seconds].  The result carries the callables handed to
    [process.nextTick], in order. *)
Definition handleQueue (now : Z) (st : limiter) : option (limiter * list nat) :=
  if CONCURRENCY <? running st then Some (st, [])
  else match currentLimit st with
       | None => None
       | Some l =>
           if now - Limit.ts l <? ms DELAY_AFTER_ERROR then Some (st, [])
           else
             let st1 := removeOlderThan (now - ms (Limit.seconds l)) st in
             match calculateAvailableQuota now st1 with
             | None => None
             | Some availableQuota =>
                 Some (startJobs (Z.to_nat availableQuota) now st1 [])
             end
       end.

(** What the 500 ms timer passes to [saveHandler] after [handleQueue]:
    [this.jobs.filter (job => !!job.ts)]. *)
Definition saved (st : limiter) : list Job.job :=
  List.filter Job.truthy_ts (jobs st).

(** The [.then] and [.catch] continuations of a dispatched job.  [err] is
    what the job's promise was rejected with: [None] for [null] or
    [undefined], otherwise the truthiness of [err.isQuotaError].  On
    [null] or [undefined] the read of [err.isQuotaError] throws before
    anything else is done: the result is [None], and [running] is not
    decremented. *)
Definition jobResolved (st : limiter) : limiter := with_running st (running st - 1).

Definition jobRejected (err : option bool) (now : Z) (st : limiter)
  : option limiter :=
  match err with
  | None => None
  | Some isQuotaError =>
      let st' :=
        if isQuotaError then
          match slowdown now st with
          | Some r => r.2
          | None => st
          end
        else st in
      Some (with_running st' (running st' - 1))
  end.

(** ** Event traces

    What can happen to a limiter: the calls of its interface, the two
    timers of the constructor ([Tick] runs [handleQueue], [Speedup] runs
    [speedup]) and the settlement of a dispatched job ([Then], [Catch]).
    When the [.catch] handler throws, the promise it returns is rejected,
    nobody waits for it, and the limiter is as it was. *)

Inductive event : Type :=
| SetInitialLimit (queries seconds now : Z)
| AddJob (func : nat)
| Tick (now : Z)
| Speedup (now : Z)
| Then
| Catch (err : option bool) (now : Z).

Definition step (e : event) (st : limiter) : option limiter :=
  match e with
  | SetInitialLimit q s now => Some (setInitialLimit q s now st)
  | AddJob f => Some (addJob f st)
  | Tick now => fst <$> handleQueue now st
  | Speedup now => snd <$> speedup now st
  | Then => Some (jobResolved st)
  | Catch err now => Some (default st (jobRejected err now st))
  end.

Fixpoint run (es : list event) (st : limiter) : option limiter :=
  match es with
  | [] => Some st
  | e :: es' =>
      match step e st with
      | Some st' => run es' st'
      | None => None
      end
  end.

End QuotaLimiter.

(** ** Vocabulary for the rate window properties *)

Module RateWindow.
Import QuotaLimiter.

(** The four ways the program proposes a new rate window; each goes
    through [setLimit], whose verdict [propose] returns. *)
Inductive update : Type :=
| USetInitialLimit (queries seconds : Z)
| USetLimit (queries seconds : Z)
| USlowdown
| USpeedup.

Definition propose (u : update) (now : Z) (st : limiter) : option (bool * limiter) :=
  match u with
  | USetInitialLimit q s => Some (setLimit q s now (with_initialLimit st q s))
  | USetLimit q s => Some (setLimit q s now st)
  | USlowdown => slowdown now st
  | USpeedup => speedup now st
  end.


(** The [ts] an accepted update is stamped with. *)
Definition stamp (now : Z) (st : limiter) : Z :=
  match currentLimit st with
  | Some _ => now
  | None => 0
  end.

(** [maxOperations > 0] and [windowSeconds > 0]. *)
Definition limit_positive (st : limiter) : Prop :=
  match currentLimit st with
  | Some l => 0 < Limit.queries l /\ 0 < Limit.seconds l
  | None => True
  end.

(** One [slowdown] at each of [times]. *)
Fixpoint slowdowns (times : list Z) (st : limiter) : option limiter :=
  match times with
  | [] => Some st
  | now :: rest =>
      match slowdown now st with
      | Some r => slowdowns rest r.2
      | None => None
      end
  end.


End RateWindow.


(** ** The download loop *)

Module FilesStructure.
(** Modelled from the spec: the class [FilesStructure] (its constants
    [CONFLICT_MIME], [REDIRECT_MIME], [DRAWING_MIME], [DOCUMENT_MIME] and
    its methods [findFiles], [markClean], [markDirty]) is imported by
    [DownloadPlugin] but is not among the sources.  The spec describes
    it as a store of work items with a pure enumeration call and
    idempotent "mark resolved" / "mark pending" calls.  The store is a
    map from [file.id] to the file's other attributes; an item handed to
    the plugin is the pair of the two. *)
Inductive MimeType : Type :=
| CONFLICT_MIME
| REDIRECT_MIME
| DRAWING_MIME
| DOCUMENT_MIME
| OtherMime (name : string).

(** Modelled from the spec: the attributes of a work item that
    [handleDirtyFiles] reads ([file.mimeType], [file.size], [item.dirty]). *)
Record File : Type := mkFile {
  mimeType : MimeType;
  size : option Z;
  dirty : bool
}.

Definition setDirty (b : bool) (f : File) : File :=
  mkFile (mimeType f) (size f) b.

(** Modelled from the spec: [enumeratePending], for any checker. *)
Definition findFiles (checker : File -> bool) (fs : gmap string File)
  : list (string * File) :=
  filter (fun item => checker item.2) (map_to_list fs).

(** Modelled from the spec: [markResolved]. *)
Definition markClean (items : list (string * File)) (fs : gmap string File)
  : gmap string File :=
  foldr (fun item acc => alter (setDirty false) item.1 acc) fs items.

(** Modelled from the spec: [markPending]. *)
Definition markDirty (items : list (string * File)) (fs : gmap string File)
  : gmap string File :=
  foldr (fun item acc => alter (setDirty true) item.1 acc) fs items.
End FilesStructure.

Module DownloadPlugin.
Import FilesStructure.

(** How a promise settles. *)
Inductive settled : Type := Fulfilled | Rejected.

(** What one call of [handleDirtyFiles] leaves behind: the store, the
    promises it made with their settlements, the events emitted before it
    returns and those whose emission it handed to [process.nextTick]. *)
Record pass : Type := mkPass {
  files : gmap string File;
  promises : list (string * settled);
  emitted : list string;
  nextTick : list string
}.

(** The remote services and the local disk are outside the program:
    [succeeds id] tells whether every remote call and local write made
    for the file [id] in this pass goes through.  Console output and the
    files written under [config_dir] are not modelled. *)
Section Downloads.
Variable succeeds : string -> bool.

(** [try { download } catch (err) { unlink; throw err }; markClean] *)
Definition downloadAsset (file : string * File) (fs : gmap string File)
  : settled * gmap string File :=
  if succeeds file.1 then (Fulfilled, markClean [file] fs) else (Rejected, fs).

(** Two exports, each [try { export } catch (err) { unlink; throw err }],
    then [putFile] and [markClean]. *)
Definition downloadDiagram (file : string * File) (fs : gmap string File)
  : settled * gmap string File :=
  if succeeds file.1 then (Fulfilled, markClean [file] fs) else (Rejected, fs).

(** [try { export; download; write; markClean }
     catch (err) { unlink; markDirty; throw err }] *)
Definition downloadDocument (file : string * File) (fs : gmap string File)
  : settled * gmap string File :=
  if succeeds file.1 then (Fulfilled, markClean [file] fs)
  else (Rejected, markDirty [file] fs).

(** The body of [for (const file of dirtyFiles)]: the promise pushed for
    [file], if any. *)
Definition promiseFor (file : string * File)
  : option (gmap string File -> settled * gmap string File) :=
  match mimeType file.2 with
  | CONFLICT_MIME => Some (fun fs => (Fulfilled, markClean [file] fs))
  | REDIRECT_MIME => Some (fun fs => (Fulfilled, markClean [file] fs))
  | DRAWING_MIME => Some (downloadDiagram file)
  | DOCUMENT_MIME => Some (downloadDocument file)
  | OtherMime _ =>
      match size file.2 with
      | Some _ => Some (downloadAsset file)
      | None => None
      end
  end.

(** The loop followed by [await Promise.allSettled (promises)]: every
    promise is run to its settlement, whatever the others did; the result
    lists, in the order of [promises], the file each promise was made for
    and how it settled.  The jobs suspend at their input and output and
    interleave; here each runs to its end before the next, in the order
    of the list, and any other order leaves the same store. *)
Fixpoint allSettled (dirtyFiles : list (string * File)) (fs : gmap string File)
  : list (string * settled) * gmap string File :=
  match dirtyFiles with
  | [] => ([], fs)
  | file :: rest =>
      match promiseFor file with
      | Some p =>
          let r := p fs in
          let rs := allSettled rest r.2 in
          ((file.1, r.1) :: rs.1, rs.2)
      | None => allSettled rest fs
      end
  end.

Definition handleDirtyFiles (fs : gmap string File) : pass :=
  let dirtyFiles := findFiles dirty fs in
  let r := allSettled dirtyFiles fs in
  let dirtyFilesAfter := findFiles dirty r.2 in
  if (0 <? length dirtyFilesAfter)%nat
  then mkPass r.2 r.1 [] ["download:retry"%string]
  else mkPass r.2 r.1 ["download:clean"%string] [].
End Downloads.

(** The events on which the plugin runs [handleDirtyFiles]. *)
Definition listens (event : string) : bool :=
  bool_decide (event = "files_structure:dirty"%string) ||
  bool_decide (event = "download:process"%string) ||
  bool_decide (event = "download:retry"%string).

(** What the job of [file] leaves in the file's own entry. *)
Definition ownEffect (succeeds : string -> bool) (file : string * File)
  : File -> File :=
  match mimeType file.2 with
  | CONFLICT_MIME | REDIRECT_MIME => setDirty false
  | DRAWING_MIME => if succeeds file.1 then setDirty false else fun f => f
  | DOCUMENT_MIME => if succeeds file.1 then setDirty false else setDirty true
  | OtherMime _ =>
      match size file.2 with
      | Some _ => if succeeds file.1 then setDirty false else fun f => f
      | None => fun f => f
      end
  end.

(** How the promise of [file] settles. *)
Definition ownOutcome (succeeds : string -> bool) (file : string * File)
  : settled :=
  match mimeType file.2 with
  | CONFLICT_MIME | REDIRECT_MIME => Fulfilled
  | _ => if succeeds file.1 then Fulfilled else Rejected
  end.

(** The items whose job is a transfer from the remote store. *)
Definition isTransfer (f : File) : bool :=
  match mimeType f with
  | CONFLICT_MIME | REDIRECT_MIME => false
  | DRAWING_MIME | DOCUMENT_MIME => true
  | OtherMime _ => bool_decide (is_Some (size f))
  end.

End DownloadPlugin.

(** * Properties *)

(** ** The claims of the specification, as it states them *)

Module RateWindowClaims.
Import QuotaLimiter RateWindow.

(** A clock reading of the present day, in milliseconds. *)
Definition T0 : Z := 1700000000000.


(** C3 as stated: on a new limiter, [setInitialLimit] followed within the
    cooldown by [setLimit] with the same positive values leaves the whole
    state, timestamp included, unchanged. *)
Definition idempotent_claim : Prop :=
  forall initialJobs q s t1 t2,
    0 < q -> 0 < s -> t1 <= t2 -> t2 - t1 < ms DELAY_AFTER_ERROR ->
    let st1 := setInitialLimit q s t1 (new initialJobs) in
    setLimit q s t2 st1 = (false, st1).


(** C9 as stated: an accepted speedup adds exactly 1 to [queries] and
    leaves [seconds] alone. *)
Definition speedup_claim : Prop :=
  forall st st' l now,
    currentLimit st = Some l ->
    speedup now st = Some (true, st') ->
    exists l', currentLimit st' = Some l' /\
               Limit.queries l' = Limit.queries l + 1 /\
               Limit.seconds l' = Limit.seconds l.
End RateWindowClaims.


Module QueueClaims.
Import QuotaLimiter RateWindow RateWindowClaims.

(** [n] jobs submitted one after the other. *)
Definition addJobs (n : nat) : list event := List.map AddJob (seq 0 n).

(** C1 as stated: after any sequence of events that ends in a tick, at
    most [CONCURRENCY] jobs are running and at most [queries] jobs were
    started within the window. *)
Definition caps_claim : Prop :=
  forall es now st,
    run (es ++ [Tick now]) (new []) = Some st ->
    running st <= CONCURRENCY /\
    forall l, currentLimit st = Some l ->
      quotaUsed now l (jobs st) <= Limit.queries l.


(** Limit 100 per 10 s, 17 jobs submitted, one tick: 16 jobs running. *)
Definition busy : limiter :=
  Eval vm_compute in
    default (new [])
      (run (SetInitialLimit 100 10 T0 :: addJobs 17 ++ [Tick (T0 + 500)]) (new [])).

(** Half a second later the next tick starts the 17th. *)
Definition busy' : limiter :=
  Eval vm_compute in default (new []) (run [Tick (T0 + 1000)] busy).

(** Limit 10 per 10 s, one job submitted and started, never resolved. *)
Definition lone : limiter :=
  Eval vm_compute in
    default (new [])
      (run [SetInitialLimit 10 10 T0; AddJob 0; Tick (T0 + 500)] (new [])).

(** Limit 20 per 100 s, 16 jobs started, one of them rejected with a
    quota error 100 ms later, and the first tick after the cooldown. *)
Definition slowed : limiter :=
  Eval vm_compute in
    default (new [])
      (run (SetInitialLimit 20 100 T0 :: addJobs 16 ++
            [Tick (T0 + 500); Catch (Some true) (T0 + 600); Tick (T0 + 5600)])
           (new [])).

End QueueClaims.

Module DownloadExamples.
Import FilesStructure DownloadPlugin.
Local Open Scope string_scope.

(** A store with a pending document, a pending drawing and a clean asset,
    and a remote store that serves the drawing only. *)
Definition store0 : gmap string File :=
  <["a" := mkFile DOCUMENT_MIME None true]>
    (<["b" := mkFile DRAWING_MIME None true]>
       (<["c" := mkFile (OtherMime "image/png") (Some 3) false]> ∅)).

Definition onlyB (id : string) : bool := bool_decide (id = "b").
End DownloadExamples.


(** ** Vocabulary for further properties of the limiter *)

Module Schedule.
Import QuotaLimiter RateWindowClaims QueueClaims.

(** The callables of the jobs [this.jobs.find (job => !job.ts && job.func)]
    can still return, in queue order. *)
Fixpoint pending (js : list Job.job) : list nat :=
  match js with
  | [] => []
  | j :: rest =>
      match (if notStarted j then Job.func j else None) with
      | Some f => f :: pending rest
      | None => pending rest
      end
  end.

(** [run], keeping the callables the ticks handed to [process.nextTick],
    in the order they were handed over. *)
Fixpoint runLog (es : list event) (st : limiter) : option (limiter * list nat) :=
  match es with
  | [] => Some (st, [])
  | Tick now :: es' =>
      match handleQueue now st with
      | Some (st1, fs) =>
          match runLog es' st1 with
          | Some (st2, gs) => Some (st2, fs ++ gs)
          | None => None
          end
      | None => None
      end
  | e :: es' =>
      match step e st with
      | Some st1 => runLog es' st1
      | None => None
      end
  end.

(** The callables passed to [addJob], in order. *)
Fixpoint submitted (es : list event) : list nat :=
  match es with
  | [] => []
  | AddJob f :: es' => f :: submitted es'
  | _ :: es' => submitted es'
  end.


(** The settlements among the events whose handler ran to its end: every
    [.then], and every [.catch] but those of a rejection with [null] or
    [undefined], on which the handler throws. *)
Fixpoint settlements (es : list event) : nat :=
  match es with
  | [] => O
  | Then :: es' => S (settlements es')
  | Catch (Some _) _ :: es' => S (settlements es')
  | _ :: es' => settlements es'
  end.

(** The rejections with [null] or [undefined]: their [.catch] handler
    throws on [err.isQuotaError], before [this.running--]. *)
Fixpoint thrown (es : list event) : nat :=
  match es with
  | [] => O
  | Catch None _ :: es' => S (thrown es')
  | _ :: es' => thrown es'
  end.

(** The jobs that settled, one way or the other. *)
Fixpoint settled (es : list event) : nat :=
  match es with
  | [] => O
  | Then :: es' => S (settled es')
  | Catch _ _ :: es' => S (settled es')
  | _ :: es' => settled es'
  end.

(** The clock reading an event carries. *)
Definition clock (e : event) : option Z :=
  match e with
  | SetInitialLimit _ _ now => Some now
  | Tick now => Some now
  | Speedup now => Some now
  | Catch _ now => Some now
  | AddJob _ => None
  | Then => None
  end.

(** No clock reading is before the epoch. *)
Definition after_epoch (es : list event) : Prop :=
  Forall (fun e => match clock e with Some now => 0 <= now | None => True end) es.

(** The clock readings never go back, starting from [prev]. *)
Fixpoint ascending (prev : Z) (es : list event) : Prop :=
  match es with
  | [] => True
  | e :: es' =>
      match clock e with
      | Some now => prev <= now /\ ascending now es'
      | None => ascending prev es'
      end
  end.

Fixpoint lastClock (prev : Z) (es : list event) : Z :=
  match es with
  | [] => prev
  | e :: es' =>
      match clock e with
      | Some now => lastClock now es'
      | None => lastClock prev es'
      end
  end.

(** Events that cannot lower [queries]: no [setInitialLimit], no quota
    error. *)
Definition calm (e : event) : bool :=
  match e with
  | SetInitialLimit _ _ _ => false
  | Catch (Some true) _ => false
  | _ => true
  end.

(** At clock reading [now] no more than [queries] jobs were started
    within the window. *)
Definition windowOK (now : Z) (st : limiter) : Prop :=
  forall l, currentLimit st = Some l ->
    quotaUsed now l (jobs st) <= Limit.queries l.

(** Limit 100 per 10 s, 17 jobs submitted, a tick, a speedup, one job
    resolved and one rejected for another reason than quota, a tick. *)
Definition calmEnd : limiter :=
  Eval vm_compute in
    default (new [])
      (run (SetInitialLimit 100 10 T0 :: addJobs 17 ++
            [Tick (T0 + 500); Speedup (T0 + 600); Then;
             Catch (Some false) (T0 + 700); Tick (T0 + 1000)]) (new [])).

(** Limit 100 per 10 s, 17 jobs submitted and a tick that starts 16 of
    them; one resolves, one is rejected with [undefined], one is rejected
    for another reason than quota. *)
Definition leaky : list event :=
  SetInitialLimit 100 10 T0 :: addJobs 17 ++
  [Tick (T0 + 500); Then; Catch None (T0 + 700); Catch (Some false) (T0 + 800)].

Definition leakyEnd : limiter :=
  Eval vm_compute in default (new []) (run leaky (new [])).

(** A limiter built from what [saveHandler] was given for [busy']. *)
Definition restored : limiter :=
  Eval vm_compute in setInitialLimit 100 10 T0 (new (saved busy')).

End Schedule.

(** ** Vocabulary for further properties of the download loop *)

Module DownloadLoop.
Import FilesStructure DownloadPlugin DownloadExamples.




Definition never (id : string) : bool := false.

End DownloadLoop.

(** ** [DownloadPlugin.ensureDir] *)

Module Paths.
Local Open Scope string_scope.

(** [s.split (sep)] for a separator of one character. *)
Fixpoint split (sep : Ascii.ascii) (s : string) : list string :=
  match s with
  | EmptyString => [EmptyString]
  | String c rest =>
      if Ascii.eqb c sep then EmptyString :: split sep rest
      else match split sep rest with
           | part :: parts => String c part :: parts
           | [] => [String c EmptyString]
           end
  end.

(** [parts.join (sep)] *)
Fixpoint join (sep : Ascii.ascii) (parts : list string) : string :=
  match parts with
  | [] => EmptyString
  | [part] => part
  | part :: rest => part ++ String sep (join sep rest)
  end.

(** [path.sep] is the platform's separator, a parameter here.  The result
    is the directory [ensureDir] looks up with [fs.existsSync] and creates
    with [fs.mkdirSync (..., { recursive: true })] when it is missing;
    [None] when it returns before touching the file system. *)
Definition ensureDir (sep : Ascii.ascii) (filePath : string) : option string :=
  let parts := split sep filePath in
  if (length parts <? 2)%nat then None
  else Some (join sep (removelast parts)).

(** [sep] occurs in [s]. *)
Fixpoint occurs (sep : Ascii.ascii) (s : string) : bool :=
  match s with
  | EmptyString => false
  | String c rest => Ascii.eqb c sep || occurs sep rest
  end.

End Paths.

(** ** [ListRootPlugin.start] and [ConfigDirPlugin.initConfigDir] *)

Module ListRootPlugin.
Local Open Scope string_scope.

(** A file as [listRootRecursive] returns it: [start] reads and writes
    [parentId] only; [rest] stands for all its other properties. *)
Record ApiFile (A : Type) : Type := mkApiFile {
  parentId : option string;
  rest : A
}.
Arguments mkApiFile {A} _ _.
Arguments parentId {A} _.
Arguments rest {A} _.

(** What [start] emits on the event bus. *)
Inductive signal (T : Type) : Type :=
| Panic (message : string)
| ListRootDone (folderId driveId : option string) (lastMTime : T).
Arguments Panic {T} _.
Arguments ListRootDone {T} _ _ _.

(** JavaScript truthiness of a string that may be [undefined]. *)
Definition truthy (s : option string) : bool :=
  match s with
  | Some x => negb (String.eqb x "")
  | None => false
  end.

(** [file => { if (file.parentId === rootFolderId) file.parentId = undefined;
               return file; }] *)
Definition detach {A} (rootFolderId : option string) (file : ApiFile A)
  : ApiFile A :=
  if decide (parentId file = rootFolderId)
  then mkApiFile None (rest file)
  else file.

(** [start].  Its collaborators are inputs: [rootFolderId] is what
    [urlToFolderId] returned, [lastMTime] what [getMaxModifiedTime]
    returned, [listing] the outcome of [listRootRecursive] (the files, or
    the message of the error thrown) and [merge] that of
    [filesStructure.merge] on the files it is given ([Some message] when it
    throws).  The result is the list handed to [merge], if it was called,
    and the event emitted. *)
Definition start {A T} (drive_id rootFolderId : option string) (lastMTime : T)
    (listing : string + list (ApiFile A))
    (merge : list (ApiFile A) -> option string)
  : option (list (ApiFile A)) * signal T :=
  let driveId := if truthy drive_id then drive_id else None in
  match listing with
  | inl message => (None, Panic message)
  | inr apiFiles =>
      let changedFiles := List.map (detach rootFolderId) apiFiles in
      match merge changedFiles with
      | Some message => (Some changedFiles, Panic message)
      | None => (Some changedFiles, ListRootDone rootFolderId driveId lastMTime)
      end
  end.

End ListRootPlugin.

Module ConfigDirPlugin.
Import ListRootPlugin.
Local Open Scope string_scope.

(** What [fs.existsSync] and [fs.lstatSync (...).isDirectory ()] say of
    [params.config_dir]. *)
Inductive entry : Type := Missing | Directory | NotDirectory.

(** The command line parameters [initConfigDir] reads;
    [flat_folder_structure] is the truthiness of
    [params['flat-folder-structure']]. *)
Record Params : Type := mkParams {
  config_dir : string;
  drive : option string;
  drive_id : option string;
  dest : option string;
  flat_folder_structure : bool;
  link_mode : option string;
  service_account : option string;
  client_id : option string;
  client_secret : option string
}.

(** The object saved as [drive.json]; a property that is [None] is
    [undefined] and left out by [JSON.stringify]. *)
Record DriveConfig : Type := mkDriveConfig {
  cfg_drive : option string;
  cfg_drive_id : option string;
  cfg_dest : option string;
  cfg_flat_folder_structure : bool;
  cfg_link_mode : option string;
  cfg_service_account : option string;
  cfg_client_id : option string;
  cfg_client_secret : option string
}.

(** What the file system answers to the three writes of [initConfigDir]:
    [None] when the call succeeds, and the error it throws, or rejects
    with, otherwise.  [fs.mkdirSync] throws when the directory cannot be
    made (no permission, a file in the way on the path, a read-only or
    full disk); [fileService.writeFile], which [_saveConfig] returns, is
    not part of the sources at hand and only its outcome is an input. *)
Record Fs : Type := mkFs {
  found : entry;
  mkdirConfig : option string;
  mkdirHooks : option string;
  writeFile : option string
}.

(** What [initConfigDir] throws: one of its own strings, or the error of
    a file system call. *)
Inductive failure : Type :=
| Message (msg : string)
| FsError (err : string).

(** The writes that were completed, in order. *)
Inductive op : Type :=
| MkdirConfig
| MkdirHooks
| WriteConfig (cfg : DriveConfig).

(** [driveConfig] as [initConfigDir] builds it. *)
Definition driveConfig (params : Params) : DriveConfig :=
  if truthy (service_account params)
  then mkDriveConfig (drive params) (drive_id params) (dest params)
         (flat_folder_structure params) (link_mode params)
         (service_account params) None None
  else mkDriveConfig (drive params) (drive_id params) (dest params)
         (flat_folder_structure params) (link_mode params)
         None (client_id params) (client_secret params).

(** [initConfigDir]: what is thrown, if anything, and the writes
    completed before that: [config_dir], [config_dir/hooks] and
    [drive.json], each attempted only after the one before succeeded. *)
Definition initConfigDir (env : Fs) (params : Params) : option failure * list op :=
  match found env with
  | Directory => (Some (Message "WikiGDrive already initialized."), [])
  | NotDirectory => (Some (Message ".wikigdrive is not a directory"), [])
  | Missing =>
      if negb (truthy (drive params))
      then (Some (Message "--drive not specified"), [])
      else if negb (truthy (service_account params)) &&
              negb (truthy (client_id params))
      then (Some (Message "service_account or client_id / client_id not specified"), [])
      else
        match mkdirConfig env with
        | Some err => (Some (FsError err), [])
        | None =>
            match mkdirHooks env with
            | Some err => (Some (FsError err), [MkdirConfig])
            | None =>
                match writeFile env with
                | Some err => (Some (FsError err), [MkdirConfig; MkdirHooks])
                | None => (None, [MkdirConfig; MkdirHooks;
                                  WriteConfig (driveConfig params)])
                end
            end
        end
  end.

(** The parameters and the file system under which [initConfigDir] gets
    to the end. *)
Definition initialisable (env : Fs) (params : Params) : Prop :=
  found env = Missing /\ truthy (drive params) = true /\
  (truthy (service_account params) = true \/ truthy (client_id params) = true) /\
  mkdirConfig env = None /\ mkdirHooks env = None /\ writeFile env = None.

End ConfigDirPlugin.

(** ** The rate window *)

Module RateWindowFacts.
Import QuotaLimiter RateWindow.

Lemma setLimit_cases q s now st :
  (setLimit q s now st = (false, st)) \/
  (setLimit q s now st =
     (true, with_currentLimit st
              (Limit.mkLimit q s (stamp now st)))
   /\ 0 < q /\ 0 < s
   /\ forall l, currentLimit st = Some l -> ms DELAY_AFTER_ERROR <= now - Limit.ts l).
Proof.
  unfold setLimit.
  destruct (Z.leb_spec s 0); [by left|].
  destruct (Z.leb_spec q 0); [by left|].
  destruct (currentLimit st) as [l|] eqn:E.
  - destruct (Z.ltb_spec (now - Limit.ts l) (ms DELAY_AFTER_ERROR)); [by left|].
    right. unfold stamp. rewrite E. repeat split; try done. intros l' [= <-]. done.
  - right. unfold stamp. rewrite E. repeat split; done.
Qed.

Lemma setLimit_nonpositive q s now st :
  q <= 0 \/ s <= 0 -> setLimit q s now st = (false, st).
Proof.
  intros H. unfold setLimit.
  destruct (Z.leb_spec s 0); [done|].
  destruct (Z.leb_spec q 0); [done|]. lia.
Qed.

Lemma setLimit_cooling q s now st l :
  currentLimit st = Some l -> now - Limit.ts l < ms DELAY_AFTER_ERROR ->
  setLimit q s now st = (false, st).
Proof.
  intros E H. unfold setLimit. rewrite E.
  destruct (s <=? 0); [done|]. destruct (q <=? 0); [done|].
  destruct (Z.ltb_spec (now - Limit.ts l) (ms DELAY_AFTER_ERROR)); [done|lia].
Qed.

Lemma setLimit_positive q s now st :
  limit_positive st -> limit_positive (setLimit q s now st).2.
Proof.
  intros H. destruct (setLimit_cases q s now st) as [-> | (-> & ? & ? & _)];
    [done|]. by split.
Qed.

Lemma setLimit_queue q s now st :
  jobs (setLimit q s now st).2 = jobs st /\
  running (setLimit q s now st).2 = running st.
Proof.
  destruct (setLimit_cases q s now st) as [-> | (-> & _)]; done.
Qed.


Lemma startJobs_currentLimit n now st d :
  currentLimit (startJobs n now st d).1 = currentLimit st.
Proof.
  revert st d. induction n as [|n IH]; intros st d; simpl; [done|].
  destruct (startFirst now (jobs st)) as [[js f]|]; [|done].
  by rewrite IH.
Qed.

Lemma handleQueue_inv now st st' fs :
  handleQueue now st = Some (st', fs) ->
  (st' = st /\ fs = [] /\
   (CONCURRENCY < running st \/
    exists l, currentLimit st = Some l /\ now - Limit.ts l < ms DELAY_AFTER_ERROR)) \/
  (exists l aq,
     running st <= CONCURRENCY /\ currentLimit st = Some l /\
     ms DELAY_AFTER_ERROR <= now - Limit.ts l /\
     calculateAvailableQuota now (removeOlderThan (now - ms (Limit.seconds l)) st)
       = Some aq /\
     startJobs (Z.to_nat aq) now (removeOlderThan (now - ms (Limit.seconds l)) st) []
       = (st', fs)).
Proof.
  unfold handleQueue. intros H.
  destruct (Z.ltb_spec CONCURRENCY (running st)).
  { inversion H; subst. left. auto. }
  destruct (currentLimit st) as [l|] eqn:E; [|done].
  destruct (Z.ltb_spec (now - Limit.ts l) (ms DELAY_AFTER_ERROR)).
  { inversion H; subst. left. eauto 6. }
  destruct (calculateAvailableQuota _ _) as [aq|] eqn:EA; [|done].
  injection H as HH. right. exists l, aq. auto.
Qed.

Lemma handleQueue_currentLimit now st st' fs :
  handleQueue now st = Some (st', fs) -> currentLimit st' = currentLimit st.
Proof.
  intros H. destruct (handleQueue_inv _ _ _ _ H)
    as [(-> & _) | (l & aq & _ & _ & _ & _ & HA)]; [done|].
  pose proof (startJobs_currentLimit (Z.to_nat aq) now
    (removeOlderThan (now - ms (Limit.seconds l)) st) []) as HC.
  by rewrite HA in HC.
Qed.

Lemma slowdown_positive now st r :
  limit_positive st -> slowdown now st = Some r -> limit_positive r.2.
Proof.
  unfold slowdown. destruct (currentLimit st); [|done].
  intros H [= <-]. by apply setLimit_positive.
Qed.

Lemma step_positive e st st' :
  limit_positive st -> step e st = Some st' -> limit_positive st'.
Proof.
  intros H. destruct e as [q s now|f|now|now| |b now]; simpl.
  - intros [= <-]. unfold setInitialLimit. by apply setLimit_positive.
  - by intros [= <-].
  - destruct (handleQueue now st) as [[st1 fs]|] eqn:E; [|done].
    intros [= <-]. unfold limit_positive.
    by rewrite (handleQueue_currentLimit _ _ _ _ E).
  - unfold speedup. destruct (currentLimit st) as [l|]; [|done].
    intros [= <-]. by apply setLimit_positive.
  - by intros [= <-].
  - intros [= <-]. unfold jobRejected.
    destruct b as [[|]|]; [|done|done]. simpl.
    destruct (slowdown now st) as [r|] eqn:E; [|done].
    by apply (slowdown_positive now st r).
Qed.

Lemma run_positive es st st' :
  limit_positive st -> run es st = Some st' -> limit_positive st'.
Proof.
  revert st. induction es as [|e es IH]; intros st H; simpl.
  - by intros [= <-].
  - destruct (step e st) as [st1|] eqn:E; [|done].
    apply IH. by apply (step_positive e st).
Qed.


Lemma pow53 : 2 ^ 53 = 9007199254740992.
Proof. reflexivity. Qed.

Lemma pow54 : 2 ^ 54 = 18014398509481984.
Proof. reflexivity. Qed.

(** While the sum stays within 2^53 it is exact. *)
Lemma js_succ_small x : Z.abs (x + 1) <= 2 ^ 53 -> js_succ x = x + 1.
Proof.
  intros H. unfold js_succ. by destruct (Z.leb_spec (Z.abs (x + 1)) (2 ^ 53)); [|lia].
Qed.

Lemma js_succ_ge x : x <= js_succ x.
Proof.
  unfold js_succ. destruct (Z.abs (x + 1) <=? 2 ^ 53); [lia|].
  destruct (2 ^ 54 <=? Z.abs x); [lia|]. destruct (Z.even (x / 2)); lia.
Qed.

Lemma js_succ_le x : js_succ x <= x + 2.
Proof.
  unfold js_succ. destruct (Z.abs (x + 1) <=? 2 ^ 53); [lia|].
  destruct (2 ^ 54 <=? Z.abs x); [lia|]. destruct (Z.even (x / 2)); lia.
Qed.

End RateWindowFacts.

Module RateWindowTheorems.
Import QuotaLimiter RateWindow RateWindowFacts RateWindowClaims QueueClaims.

(** C8.  The rate window is positive throughout: after any sequence of
    events on a limiter built by the constructor, a current limit, if
    there is one, has [queries > 0] and [seconds > 0]; and a proposal in
    which either value is not positive is turned down, [setLimit]
    returning [false] and leaving the whole limiter as it was. *)
Theorem rate_window_positive (initialJobs : list Job.job) (es : list event)
    (st : limiter) (q s now : Z) :
  run es (new initialJobs) = Some st ->
  limit_positive st /\
  (q <= 0 \/ s <= 0 -> setLimit q s now st = (false, st)).
Proof.
  intros H. split.
  - by apply (run_positive es (new initialJobs)).
  - apply setLimit_nonpositive.
Qed.

Lemma rate_window_positive_witness :
  limit_positive busy /\ setLimit 0 10 (T0 + 9000) busy = (false, busy).
Proof.
  destruct (rate_window_positive []
              (SetInitialLimit 100 10 T0 :: addJobs 17 ++ [Tick (T0 + 500)])
              busy 0 10 (T0 + 9000) eq_refl) as [H1 H2].
  split; [exact H1 | apply H2; left; lia].
Defined.

(** C9 (as amended).  A speedup whose proposal [setLimit] accepts came at
    least the cooldown after the [ts] of the window (which is 0 for the
    first window), and it replaces the window by one with the same
    [seconds], the time of the speedup as [ts], and [queries + 1] as
    JavaScript computes it: exactly 1 more, and strictly more, as long as
    [queries] is below 2^53, and never less than [queries]; nothing else of
    the limiter changes. *)
Theorem speedup_adds_one (st st' : limiter) (l : Limit.limit) (now : Z) :
  currentLimit st = Some l ->
  speedup now st = Some (true, st') ->
  ms DELAY_AFTER_ERROR <= now - Limit.ts l /\
  st' = with_currentLimit st
          (Limit.mkLimit (js_succ (Limit.queries l)) (Limit.seconds l) now) /\
  (forall l', currentLimit st' = Some l' ->
     Limit.seconds l' = Limit.seconds l /\
     Limit.queries l <= Limit.queries l' /\
     (Limit.queries l < 2 ^ 53 ->
      Limit.queries l' = Limit.queries l + 1 /\
      Limit.queries l < Limit.queries l')).
Proof.
  intros E. unfold speedup. rewrite E. intros [= H].
  destruct (setLimit_cases (js_succ (Limit.queries l)) (Limit.seconds l) now st)
    as [H1 | (H1 & Hpos & _ & H2)]; rewrite H1 in H; inversion H; subst.
  unfold stamp. rewrite E. split; [by apply H2|]. split; [done|].
  simpl. intros l' [= <-]. simpl. split; [done|]. split; [apply js_succ_ge|].
  intros Hlt.
  assert (0 <= Limit.queries l).
  { pose proof (js_succ_le (Limit.queries l)).
    destruct (Z.eq_dec (Limit.queries l) (-1)) as [Heq|Hne]; [|lia].
    rewrite Heq in Hpos. vm_compute in Hpos. discriminate. }
  rewrite js_succ_small by (rewrite pow53 in *; lia). lia.
Qed.


Lemma speedup_adds_one_witness :
  speedup (T0 + 6000) (setInitialLimit 10 10 T0 (new [])) =
    Some (true, with_currentLimit (setInitialLimit 10 10 T0 (new []))
                  (Limit.mkLimit 11 10 (T0 + 6000))) /\
  ms DELAY_AFTER_ERROR <= T0 + 6000 - 0.
Proof.
  split; [reflexivity|].
  exact (proj1 (speedup_adds_one (setInitialLimit 10 10 T0 (new [])) _
                  (Limit.mkLimit 10 10 0) (T0 + 6000) eq_refl eq_refl)).
Defined.

Lemma speedup_claim_fails : ~ speedup_claim.
Proof.
  intros H.
  destruct (H (setInitialLimit (2 ^ 53) 10 T0 (new [])) _
              (Limit.mkLimit (2 ^ 53) 10 0) (T0 + 6000) eq_refl eq_refl)
    as (l' & E & Q & _).
  vm_compute in E. injection E as <-. vm_compute in Q. discriminate Q.
Qed.






(** The first window of a limiter is stamped 0. *)
Lemma setInitialLimit_fresh initialJobs q s now :
  0 < q -> 0 < s ->
  setInitialLimit q s now (new initialJobs)
  = mkLimiter initialJobs 0 (Some (Limit.mkLimit q s 0)) (Some (q, s)).
Proof.
  intros Hq Hs. unfold setInitialLimit, setLimit. simpl.
  destruct (Z.leb_spec s 0); [lia|]. destruct (Z.leb_spec q 0); [lia|]. done.
Qed.

(** C3 (as amended).  On a limiter fresh from the constructor,
    [setInitialLimit q s] with positive arguments sets the window
    [(q, s)] stamped with time 0.  A [setLimit q s] that follows at clock
    reading [t2] is a no-op only if [t2] is less than 5 seconds; otherwise
    it is accepted: it keeps [queries] and [seconds] and moves the
    update timestamp to [t2].  A further [setLimit q s] less than
    5 seconds after that accepted call is a no-op. *)
Theorem setInitialLimit_then_setLimit (initialJobs : list Job.job) (q s t1 t2 : Z) :
  0 < q -> 0 < s ->
  let st1 := setInitialLimit q s t1 (new initialJobs) in
  currentLimit st1 = Some (Limit.mkLimit q s 0) /\
  setLimit q s t2 st1 =
    (if t2 <? ms DELAY_AFTER_ERROR then (false, st1)
     else (true, with_currentLimit st1 (Limit.mkLimit q s t2))) /\
  (forall t3, ms DELAY_AFTER_ERROR <= t2 -> t3 - t2 < ms DELAY_AFTER_ERROR ->
     setLimit q s t3 (setLimit q s t2 st1).2 = (false, (setLimit q s t2 st1).2)).
Proof.
  intros Hq Hs st1.
  assert (E1 : st1 = mkLimiter initialJobs 0 (Some (Limit.mkLimit q s 0)) (Some (q, s)))
    by by apply setInitialLimit_fresh.
  assert (E2 : setLimit q s t2 st1 =
    (if t2 <? ms DELAY_AFTER_ERROR then (false, st1)
     else (true, with_currentLimit st1 (Limit.mkLimit q s t2)))).
  { rewrite E1. unfold setLimit. simpl.
    destruct (Z.leb_spec s 0); [lia|]. destruct (Z.leb_spec q 0); [lia|].
    by rewrite Z.sub_0_r. }
  split; [by rewrite E1|]. split; [done|].
  intros t3 H2 H3. rewrite E2.
  destruct (Z.ltb_spec t2 (ms DELAY_AFTER_ERROR)); [lia|]. simpl.
  by apply (setLimit_cooling q s t3 _ (Limit.mkLimit q s t2)).
Qed.

Lemma setInitialLimit_then_setLimit_witness :
  0 < 10 /\
  setLimit 10 10 (T0 + 1) (setInitialLimit 10 10 T0 (new []))
  = (true, with_currentLimit (setInitialLimit 10 10 T0 (new []))
             (Limit.mkLimit 10 10 (T0 + 1))).
Proof.
  split; [lia|].
  exact (proj1 (proj2 (setInitialLimit_then_setLimit [] 10 10 T0 (T0 + 1)
                         ltac:(lia) ltac:(lia)))).
Defined.

Lemma idempotent_claim_fails : ~ idempotent_claim.
Proof.
  intros H.
  specialize (H [] 10 10 T0 T0 ltac:(lia) ltac:(lia) ltac:(lia) ltac:(vm_compute; reflexivity)).
  discriminate H.
Qed.
End RateWindowTheorems.

Module Halving.
Import QuotaLimiter RateWindow RateWindowFacts RateWindowClaims RateWindowTheorems.









End Halving.

(** ** The queue *)

Module QueueFacts.
Import QuotaLimiter RateWindow RateWindowFacts.

Lemma inWindow_keeps now l j :
  inWindow now l j = true -> keeps (now - ms (Limit.seconds l)) j = true.
Proof.
  unfold inWindow, keeps. destruct (Job.truthy_ts j); simpl; [|done].
  destruct (Job.ts j) as [x|]; [|done].
  intros H. apply Z.ltb_lt in H. apply Z.leb_le. lia.
Qed.

Lemma filter_filter_implied {A} (p q : A -> bool) (xs : list A) :
  (forall x, p x = true -> q x = true) ->
  List.filter p (List.filter q xs) = List.filter p xs.
Proof.
  intros Hpq. induction xs as [|x xs IH]; simpl; [done|].
  destruct (q x) eqn:Eq; simpl.
  - by rewrite IH.
  - destruct (p x) eqn:Ep; [|done].
    rewrite (Hpq x Ep) in Eq. discriminate.
Qed.

Lemma quotaUsed_removeOlderThan now l st :
  quotaUsed now l (jobs (removeOlderThan (now - ms (Limit.seconds l)) st))
  = quotaUsed now l (jobs st).
Proof.
  unfold quotaUsed, removeOlderThan. simpl.
  rewrite filter_filter_implied; [done|]. apply inWindow_keeps.
Qed.

Lemma notStarted_not_inWindow now l j :
  notStarted j = true -> inWindow now l j = false.
Proof.
  unfold notStarted, inWindow. by destruct (Job.truthy_ts j).
Qed.

Lemma quotaUsed_cons now l j js :
  quotaUsed now l (j :: js) =
  (if inWindow now l j then 1 else 0) + quotaUsed now l js.
Proof.
  unfold quotaUsed. simpl. destruct (inWindow now l j); simpl; lia.
Qed.

Lemma startFirst_None now js :
  startFirst now js = None -> forall j, In j js -> notStarted j = false.
Proof.
  induction js as [|j0 js IH]; simpl; [done|].
  destruct (notStarted j0) eqn:E.
  - unfold notStarted in E. apply andb_true_iff in E as [_ E].
    apply bool_decide_eq_true in E as [f E]. by rewrite E.
  - destruct (startFirst now js) as [[rest f]|]; [done|].
    intros _ j [<-|Hj]; [done|]. by apply IH.
Qed.

Lemma startFirst_quotaUsed now now' l js js' f :
  startFirst now js = Some (js', f) ->
  quotaUsed now' l js' <= quotaUsed now' l js + 1.
Proof.
  revert js'. induction js as [|j js IH]; intros js'; simpl; [done|].
  destruct (notStarted j) eqn:E.
  - unfold notStarted in E. pose proof E as E0.
    apply andb_true_iff in E as [_ E].
    apply bool_decide_eq_true in E as [g E]. rewrite E.
    intros [= <- <-]. rewrite !quotaUsed_cons.
    rewrite (notStarted_not_inWindow now' l j E0).
    destruct (inWindow now' l (Job.start now j)); lia.
  - destruct (startFirst now js) as [[rest g]|]; [|done].
    intros [= <- <-]. rewrite !quotaUsed_cons.
    specialize (IH rest eq_refl). lia.
Qed.

Lemma startFirst_In now js js' f j :
  startFirst now js = Some (js', f) -> In j js ->
  In j js' \/ (notStarted j = true /\ In (Job.start now j) js').
Proof.
  revert js'. induction js as [|j0 js IH]; intros js'; simpl; [done|].
  destruct (notStarted j0) eqn:E.
  - pose proof E as E0. unfold notStarted in E.
    apply andb_true_iff in E as [_ E].
    apply bool_decide_eq_true in E as [g E]. rewrite E.
    intros [= <- <-] [<-|Hj]; simpl; auto.
  - destruct (startFirst now js) as [[rest g]|]; [|done].
    intros [= <- <-] [<-|Hj]; simpl; [auto|].
    destruct (IH rest eq_refl Hj) as [?|[? ?]]; auto.
Qed.

Lemma startFirst_In_inv now js js' f j :
  startFirst now js = Some (js', f) -> In j js' ->
  In j js \/ Job.ts j = Some now.
Proof.
  revert js'. induction js as [|j0 js IH]; intros js'; simpl; [done|].
  destruct (notStarted j0) eqn:E.
  - unfold notStarted in E. apply andb_true_iff in E as [_ E].
    apply bool_decide_eq_true in E as [g E]. rewrite E.
    intros [= <- <-] [<-|Hj]; simpl; auto.
  - destruct (startFirst now js) as [[rest g]|]; [|done].
    intros [= <- <-] [<-|Hj]; simpl; [auto|].
    destruct (IH rest eq_refl Hj); auto.
Qed.

Lemma start_idem now j : Job.start now (Job.start now j) = Job.start now j.
Proof. done. Qed.

(** What a run of the admission loop does to the counters and the queue. *)
Lemma startJobs_spec n now : forall st d st' fs,
  startJobs n now st d = (st', fs) ->
  exists k : nat,
    (k <= n)%nat /\ length fs = (length d + k)%nat /\
    running st' = running st + Z.of_nat k /\
    (forall now' l, quotaUsed now' l (jobs st') <= quotaUsed now' l (jobs st) + Z.of_nat k) /\
    (forall j, In j (jobs st) ->
       In j (jobs st') \/ (notStarted j = true /\ In (Job.start now j) (jobs st'))) /\
    (forall j, In j (jobs st') -> In j (jobs st) \/ Job.ts j = Some now).
Proof.
  induction n as [|n IH]; intros st d st' fs; simpl.
  - intros [= <- <-]. exists 0%nat. repeat split; auto with lia.
  - destruct (startFirst now (jobs st)) as [[js f]|] eqn:E.
    + intros H. destruct (IH _ _ _ _ H) as (k & Hk & HL & HR & HQ & HI & HV).
      simpl in *. exists (S k). rewrite length_app in HL. simpl in HL.
      repeat split; [lia|lia|lia| | |].
      * intros now' l. specialize (HQ now' l).
        pose proof (startFirst_quotaUsed now now' l _ _ _ E). lia.
      * intros j Hj. destruct (startFirst_In now _ _ _ j E Hj) as [Hj'|[Hn Hj']].
        -- apply HI. exact Hj'.
        -- right. split; [done|].
           destruct (HI _ Hj') as [?|[_ ?]]; [done|by rewrite start_idem in *].
      * intros j Hj. destruct (HV j Hj) as [Hj'|?]; [|auto].
        apply (startFirst_In_inv now _ _ _ j E Hj').
    + intros [= <- <-]. exists 0%nat. repeat split; auto with lia.
Qed.

Lemma truthy_not_notStarted j : Job.truthy_ts j = true -> notStarted j = false.
Proof. unfold notStarted. by intros ->. Qed.

Lemma removeOlderThan_In minTime st j :
  In j (jobs (removeOlderThan minTime st)) <-> In j (jobs st) /\ keeps minTime j = true.
Proof. unfold removeOlderThan. simpl. apply filter_In. Qed.

End QueueFacts.

Module QueueTheorems.
Import QuotaLimiter RateWindow RateWindowFacts RateWindowClaims QueueFacts QueueClaims.

Lemma calculateAvailableQuota_min now st l aq :
  currentLimit st = Some l ->
  calculateAvailableQuota now st = Some aq ->
  aq = Z.min CONCURRENCY (Limit.queries l - quotaUsed now l (jobs st)).
Proof.
  unfold calculateAvailableQuota. intros -> [= <-].
  destruct (Z.ltb_spec (Limit.queries l - quotaUsed now l (jobs st)) CONCURRENCY); lia.
Qed.

(** What a tick starts, counted. *)
Lemma handleQueue_counts now st st' fs :
  handleQueue now st = Some (st', fs) ->
  running st' = running st + Z.of_nat (length fs) /\
  Z.of_nat (length fs) <= CONCURRENCY /\
  (CONCURRENCY < running st -> st' = st /\ fs = []) /\
  forall l, currentLimit st = Some l ->
    Z.of_nat (length fs) <= Z.max 0 (Limit.queries l - quotaUsed now l (jobs st)) /\
    quotaUsed now l (jobs st') <= Z.max (quotaUsed now l (jobs st)) (Limit.queries l).
Proof.
  intros H. destruct (handleQueue_inv _ _ _ _ H)
    as [(-> & -> & _) | (l & aq & HR & E & HT & HA & HD)].
  { simpl. unfold CONCURRENCY. repeat split; try done; lia. }
  destruct (startJobs_spec _ _ _ _ _ _ HD) as (k & Hk & HL & HRun & HQ & _).
  simpl in HL. rewrite HL. clear HL.
  apply (calculateAvailableQuota_min now _ l) in HA; [|done].
  rewrite quotaUsed_removeOlderThan in HA.
  specialize (HQ now l). rewrite quotaUsed_removeOlderThan in HQ.
  simpl in HRun.
  assert (Z.of_nat k <= Z.max 0 aq) by lia.
  split; [done|]. split; [unfold CONCURRENCY in *; lia|].
  split; [lia|].
  intros l' E'. rewrite E in E'. injection E' as <-. split; lia.
Qed.

(** C1 (as amended).  A scheduling tick that returns starts at most
    [CONCURRENCY] = 16 jobs and at most [queries] minus the number of jobs
    already started within the window, raising [running] by the number
    it starts; so it never takes the number of jobs started within the
    window above [queries] (if that number was above [queries] before
    the tick, the tick starts nothing and leaves it as it was).  A tick
    that finds more than 16 jobs running starts none. *)
Theorem handleQueue_caps (now : Z) (st st' : limiter) (fs : list nat) :
  handleQueue now st = Some (st', fs) ->
  running st' = running st + Z.of_nat (length fs) /\
  Z.of_nat (length fs) <= CONCURRENCY /\
  (CONCURRENCY < running st -> st' = st /\ fs = []) /\
  forall l, currentLimit st = Some l ->
    Z.of_nat (length fs) <= Z.max 0 (Limit.queries l - quotaUsed now l (jobs st)) /\
    quotaUsed now l (jobs st') <= Z.max (quotaUsed now l (jobs st)) (Limit.queries l).
Proof. apply handleQueue_counts. Qed.

Lemma handleQueue_caps_witness :
  handleQueue (T0 + 1000) busy = Some (busy', [16%nat]) /\
  running busy' = running busy + 1.
Proof.
  split; [reflexivity|].
  exact (proj1 (handleQueue_caps (T0 + 1000) busy busy' [16%nat] eq_refl)).
Defined.

Lemma caps_claim_fails : ~ caps_claim.
Proof.
  intros H.
  destruct (H (SetInitialLimit 100 10 T0 :: addJobs 17 ++ [Tick (T0 + 500)])
              (T0 + 1000) busy' eq_refl) as [HR _].
  vm_compute in HR. by apply HR.
Qed.

(** The window cap can be exceeded as well: a slowdown shrinks
    [queries] below the number of jobs already started in the window. *)
Lemma window_cap_exceeded_after_slowdown :
  run (SetInitialLimit 20 100 T0 :: addJobs 16 ++
       [Tick (T0 + 500); Catch (Some true) (T0 + 600); Tick (T0 + 5600)]) (new [])
    = Some slowed /\
  currentLimit slowed = Some (Limit.mkLimit 10 50 (T0 + 600)) /\
  quotaUsed (T0 + 5600) (Limit.mkLimit 10 50 (T0 + 600)) (jobs slowed) = 16.
Proof. repeat split; vm_compute; reflexivity. Qed.

(** With no more than 16 running before it, a tick leaves at most 32
    running; and 32 bounds [running] over every sequence of events. *)
Lemma handleQueue_running_bound now st st' fs :
  handleQueue now st = Some (st', fs) ->
  running st' <= Z.max (running st) (2 * CONCURRENCY).
Proof.
  intros H. destruct (handleQueue_counts _ _ _ _ H) as (H1 & H2 & H3 & _).
  destruct (Z.ltb_spec CONCURRENCY (running st)) as [Hlt|Hle].
  - destruct (H3 Hlt) as [-> _]. lia.
  - lia.
Qed.

Lemma running_bounded es : forall st st',
  running st <= 2 * CONCURRENCY -> run es st = Some st' ->
  running st' <= 2 * CONCURRENCY.
Proof.
  induction es as [|e es IH]; intros st st' Hb; simpl.
  - by intros [= <-].
  - destruct (step e st) as [st1|] eqn:E; [|done].
    apply IH. destruct e as [q s now|f|now|now| |b now]; simpl in E.
    + injection E as <-. unfold setInitialLimit.
      by rewrite (proj2 (setLimit_queue q s now (with_initialLimit st q s))).
    + by injection E as <-.
    + destruct (handleQueue now st) as [[st2 fs]|] eqn:EH; [|done].
      injection E as <-. pose proof (handleQueue_running_bound _ _ _ _ EH). simpl. lia.
    + unfold speedup in E. destruct (currentLimit st) as [l|]; [|done].
      injection E as <-. simpl. by rewrite (proj2 (setLimit_queue _ _ now st)).
    + injection E as <-. simpl. lia.
    + injection E as <-. unfold jobRejected.
      destruct b as [[|]|]; simpl; [|lia|lia]. unfold slowdown.
      destruct (currentLimit st) as [l|]; [|simpl; lia]. simpl.
      rewrite (proj2 (setLimit_queue _ _ now st)). lia.
Qed.




(** The job [addJob] appends has no start timestamp. *)
Lemma addJob_queued func st :
  In (newJob func) (jobs (addJob func st)) /\ Job.truthy_ts (newJob func) = false.
Proof. split; [|done]. simpl. apply in_app_iff. right. by left. Qed.

(** C10.  A job without a start timestamp is never removed: for every
    [minTime], [removeOlderThan] keeps it, and after a scheduling tick it
    is still in the queue, either as it was or started by that tick (with
    [ts] set to the time of the tick). *)
Theorem unstarted_job_stays_queued (st : limiter) (j : Job.job) :
  In j (jobs st) -> Job.truthy_ts j = false ->
  (forall minTime, In j (jobs (removeOlderThan minTime st))) /\
  (forall now st' fs, handleQueue now st = Some (st', fs) ->
     In j (jobs st') \/ (notStarted j = true /\ In (Job.start now j) (jobs st'))).
Proof.
  intros Hj Ht.
  assert (HK : forall minTime, In j (jobs (removeOlderThan minTime st))).
  { intros minTime. apply removeOlderThan_In. split; [done|].
    unfold keeps. by rewrite Ht. }
  split; [done|].
  intros now st' fs H.
  destruct (handleQueue_inv _ _ _ _ H)
    as [(-> & _) | (l & aq & _ & _ & _ & _ & HD)]; [by left|].
  destruct (startJobs_spec _ _ _ _ _ _ HD) as (k & _ & _ & _ & _ & HI & _).
  apply HI, HK.
Qed.

Lemma unstarted_job_stays_queued_witness :
  (forall minTime, In (newJob 7) (jobs (removeOlderThan minTime (addJob 7 lone)))) /\
  (forall now st' fs, handleQueue now (addJob 7 lone) = Some (st', fs) ->
     In (newJob 7) (jobs st') \/
     (notStarted (newJob 7) = true /\ In (Job.start now (newJob 7)) (jobs st'))).
Proof.
  apply (unstarted_job_stays_queued (addJob 7 lone) (newJob 7)).
  - vm_compute. right. left. reflexivity.
  - reflexivity.
Defined.
End QueueTheorems.

(** ** The download loop *)

Module DownloadFacts.
Import FilesStructure DownloadPlugin.

Lemma promiseFor_alter succeeds file p fs :
  promiseFor succeeds file = Some p ->
  (p fs).2 = alter (ownEffect succeeds file) file.1 fs.
Proof.
  unfold promiseFor, ownEffect, downloadDiagram, downloadDocument, downloadAsset.
  destruct (mimeType file.2); [| | | |destruct (size file.2); [|done]];
    intros [= <-]; simpl; try done;
    destruct (succeeds file.1); simpl; try done;
    symmetry; apply map_eq; intros k; rewrite lookup_alter;
    case_decide; subst; by destruct (fs !! _).
Qed.

Lemma promiseFor_None_effect succeeds file :
  promiseFor succeeds file = None -> ownEffect succeeds file = (fun f => f).
Proof.
  unfold promiseFor, ownEffect.
  destruct (mimeType file.2); try done. by destruct (size file.2).
Qed.

Lemma allSettled_other succeeds batch : forall fs k,
  k ∉ batch.*1 -> (allSettled succeeds batch fs).2 !! k = fs !! k.
Proof.
  induction batch as [|file rest IH]; intros fs k Hk; simpl; [done|].
  rewrite fmap_cons in Hk. apply not_elem_of_cons in Hk as [Hne Hk].
  destruct (promiseFor succeeds file) as [p|] eqn:E; simpl.
  - rewrite IH by done. rewrite (promiseFor_alter _ _ _ _ E).
    by rewrite lookup_alter_ne.
  - by apply IH.
Qed.

Lemma allSettled_own succeeds batch : forall fs file,
  NoDup batch.*1 -> file ∈ batch ->
  (allSettled succeeds batch fs).2 !! file.1
  = ownEffect succeeds file <$> fs !! file.1.
Proof.
  induction batch as [|file0 rest IH]; intros fs file Hnd Hin; simpl.
  { by apply elem_of_nil in Hin. }
  rewrite fmap_cons in Hnd. apply NoDup_cons in Hnd as [Hfresh Hnd].
  apply elem_of_cons in Hin as [->|Hin].
  - destruct (promiseFor succeeds file0) as [p|] eqn:E; simpl.
    + rewrite allSettled_other by done.
      rewrite (promiseFor_alter _ _ _ _ E). by rewrite lookup_alter_eq.
    + rewrite allSettled_other by done.
      rewrite (promiseFor_None_effect _ _ E). by destruct (fs !! _).
  - assert (file.1 <> file0.1).
    { intros Heq. apply Hfresh. rewrite <- Heq. by apply list_elem_of_fmap_2. }
    destruct (promiseFor succeeds file0) as [p|] eqn:E; simpl.
    + rewrite IH by done. rewrite (promiseFor_alter _ _ _ _ E).
      by rewrite lookup_alter_ne.
    + by apply IH.
Qed.

(** The store the batch leaves does not depend on the order in which
    the jobs run to their settlement: jobs of different files commute. *)
Lemma allSettled_order succeeds batch batch' (fs : gmap string File) :
  NoDup batch.*1 -> batch ≡ₚ batch' ->
  (allSettled succeeds batch fs).2 = (allSettled succeeds batch' fs).2.
Proof.
  intros Hnd Hperm. apply map_eq. intros k.
  destruct (decide (k ∈ batch.*1)) as [Hin|Hout].
  - apply list_elem_of_fmap in Hin as (file & -> & Hfile).
    rewrite allSettled_own by done.
    rewrite allSettled_own; [done| |].
    + by rewrite <- Hperm.
    + by rewrite <- Hperm.
  - rewrite !allSettled_other; [done| |done].
    by rewrite <- Hperm.
Qed.

(** The promises made do not depend on how any job fares. *)
Lemma allSettled_started succeeds succeeds' batch : forall fs fs',
  (allSettled succeeds batch fs).1.*1 = (allSettled succeeds' batch fs').1.*1.
Proof.
  induction batch as [|file rest IH]; intros fs fs'; simpl; [done|].
  assert (E : is_Some (promiseFor succeeds file) <-> is_Some (promiseFor succeeds' file)).
  { unfold promiseFor. destruct (mimeType file.2); try done.
    by destruct (size file.2). }
  destruct (promiseFor succeeds file) as [p|], (promiseFor succeeds' file) as [p'|];
    simpl.
  - f_equal. apply IH.
  - destruct E as [E _]. by destruct (E ltac:(eauto)).
  - destruct E as [_ E]. by destruct (E ltac:(eauto)).
  - apply IH.
Qed.

Lemma allSettled_started_all succeeds batch : forall fs,
  (allSettled succeeds batch fs).1.*1
  = (filter (fun file => is_Some (promiseFor succeeds file)) batch).*1.
Proof.
  induction batch as [|file rest IH]; intros fs; simpl; [done|].
  rewrite filter_cons.
  destruct (decide (is_Some (promiseFor succeeds file))) as [[p E]|HN].
  - rewrite E. simpl. f_equal. apply IH.
  - destruct (promiseFor succeeds file) as [p|] eqn:E; [|apply IH].
    destruct HN. eauto.
Qed.

Lemma findFiles_dirty_elem (fs : gmap string File) k f :
  (k, f) ∈ findFiles dirty fs <-> fs !! k = Some f /\ dirty f = true.
Proof.
  unfold findFiles. rewrite list_elem_of_filter, elem_of_map_to_list. simpl.
  rewrite Is_true_true. tauto.
Qed.

Lemma findFiles_NoDup checker (fs : gmap string File) :
  NoDup (findFiles checker fs).*1.
Proof.
  unfold findFiles. apply (sublist_NoDup _ (map_to_list fs).*1);
    [apply NoDup_fst_map_to_list|].
  apply fmap_sublist, sublist_filter.
Qed.

(** The entry of a pending file after the pass. *)
Lemma handleDirtyFiles_own succeeds (fs : gmap string File) k f :
  fs !! k = Some f -> dirty f = true ->
  files (handleDirtyFiles succeeds fs) !! k = Some (ownEffect succeeds (k, f) f).
Proof.
  intros Hk Hd.
  assert (Hin : (k, f) ∈ findFiles dirty fs) by by apply findFiles_dirty_elem.
  pose proof (allSettled_own succeeds _ fs (k, f) (findFiles_NoDup _ fs) Hin) as H.
  simpl in H. rewrite Hk in H. simpl in H.
  unfold handleDirtyFiles. by destruct (0 <? _)%nat.
Qed.

Lemma handleDirtyFiles_promises succeeds (fs : gmap string File) :
  promises (handleDirtyFiles succeeds fs)
  = (allSettled succeeds (findFiles dirty fs) fs).1.
Proof. unfold handleDirtyFiles. by destruct (0 <? _)%nat. Qed.

End DownloadFacts.

Module DownloadTheorems.
Import FilesStructure DownloadPlugin DownloadFacts DownloadExamples.
Local Open Scope string_scope.

Lemma promiseFor_outcome succeeds file p fs :
  promiseFor succeeds file = Some p -> (p fs).1 = ownOutcome succeeds file.
Proof.
  unfold promiseFor, ownOutcome, downloadDiagram, downloadDocument, downloadAsset.
  destruct (mimeType file.2); [| | | |destruct (size file.2); [|done]];
    intros [= <-]; simpl; try done; by destruct (succeeds file.1).
Qed.

Lemma allSettled_settles succeeds batch : forall fs file,
  file ∈ batch -> is_Some (promiseFor succeeds file) ->
  (file.1, ownOutcome succeeds file) ∈ (allSettled succeeds batch fs).1.
Proof.
  induction batch as [|file0 rest IH]; intros fs file Hin Hp; simpl.
  { by apply elem_of_nil in Hin. }
  apply elem_of_cons in Hin as [->|Hin].
  - destruct Hp as [p E]. rewrite E. simpl.
    rewrite (promiseFor_outcome _ _ _ _ E). by left.
  - destruct (promiseFor succeeds file0) as [p0|]; simpl.
    + right. by apply IH.
    + by apply IH.
Qed.

Lemma isTransfer_promise succeeds k f :
  isTransfer f = true -> is_Some (promiseFor succeeds (k, f)).
Proof.
  unfold isTransfer, promiseFor. simpl.
  destruct (mimeType f); try done; try by eexists.
  intros H. apply bool_decide_eq_true in H as [z ->]. by eexists.
Qed.

Lemma ownEffect_agree succeeds succeeds' file :
  succeeds file.1 = succeeds' file.1 ->
  ownEffect succeeds file = ownEffect succeeds' file.
Proof. unfold ownEffect. by intros ->. Qed.

Lemma retry_when_pending succeeds (fs : gmap string File) k f :
  (k, f) ∈ findFiles dirty (files (handleDirtyFiles succeeds fs)) ->
  emitted (handleDirtyFiles succeeds fs) = [] /\
  nextTick (handleDirtyFiles succeeds fs) = ["download:retry"].
Proof.
  unfold handleDirtyFiles.
  destruct (Nat.ltb_spec 0
    (length (findFiles dirty (allSettled succeeds (findFiles dirty fs) fs).2)))
    as [Hlt|Hle]; simpl; [done|].
  intros Hin. apply list_elem_of_In in Hin.
  destruct (findFiles dirty _); [done|simpl in Hle; lia].
Qed.

(** C6.  In a pass over the pending files, a file's job is started and
    settles with its own outcome whatever the jobs of the other files do:
    a promise is made for every pending file that has a job, the same
    under any two behaviours of the remote store, the pass returns with
    the settlement of every promise, rejected ones included, and the entry of a file after the pass depends only on
    how its own job fared.  A transfer that succeeds leaves its file
    clean; one that fails is recorded as rejected, leaves its file pending
    as it was, so that the next pass enumerates it again, and the pass
    asks for a retry. *)
Theorem job_failure_isolated (succeeds succeeds' : string -> bool)
    (fs : gmap string File) (k : string) (f : File) :
  fs !! k = Some f -> dirty f = true -> succeeds k = succeeds' k ->
  let r := handleDirtyFiles succeeds fs in
  let r' := handleDirtyFiles succeeds' fs in
  (promises r).*1
    = (filter (fun file => is_Some (promiseFor succeeds file))
         (findFiles dirty fs)).*1 /\
  (promises r).*1 = (promises r').*1 /\
  (is_Some (promiseFor succeeds (k, f)) ->
     (k, ownOutcome succeeds (k, f)) ∈ promises r) /\
  files r !! k = files r' !! k /\
  (isTransfer f = true -> succeeds k = true ->
     files r !! k = Some (setDirty false f)) /\
  (isTransfer f = true -> succeeds k = false ->
     (k, Rejected) ∈ promises r /\
     (k, f) ∈ findFiles dirty (files r) /\
     emitted r = [] /\ nextTick r = ["download:retry"]).
Proof.
  intros Hk Hd Hs r r'.
  assert (Hin : (k, f) ∈ findFiles dirty fs) by by apply findFiles_dirty_elem.
  assert (Hown : files r !! k = Some (ownEffect succeeds (k, f) f))
    by by apply handleDirtyFiles_own.
  assert (Hsettle : is_Some (promiseFor succeeds (k, f)) ->
                    (k, ownOutcome succeeds (k, f)) ∈ promises r).
  { intros Hp. unfold r. rewrite handleDirtyFiles_promises.
    by apply (allSettled_settles succeeds _ fs (k, f)). }
  split; [|split; [|split; [|split; [|split]]]].
  - unfold r. rewrite handleDirtyFiles_promises. apply allSettled_started_all.
  - unfold r, r'. rewrite !handleDirtyFiles_promises. apply allSettled_started.
  - done.
  - rewrite Hown. unfold r'. rewrite (handleDirtyFiles_own succeeds' fs k f) by done.
    by rewrite (ownEffect_agree succeeds succeeds' (k, f)).
  - intros Ht Hok. rewrite Hown. f_equal. unfold ownEffect, isTransfer in *.
    simpl. rewrite Hok. destruct (mimeType f); try done.
    apply bool_decide_eq_true in Ht as [z ->]. done.
  - intros Ht Hko.
    assert (Hf : ownEffect succeeds (k, f) f = f).
    { unfold ownEffect, isTransfer in *. simpl. rewrite Hko.
      destruct f as [m sz d]. simpl in *. subst d.
      destruct m; try done. by destruct sz. }
    assert (Hstill : (k, f) ∈ findFiles dirty (files r)).
    { apply findFiles_dirty_elem. by rewrite Hown, Hf. }
    split; [|split; [done|by apply (retry_when_pending succeeds fs k f)]].
    pose proof (Hsettle (isTransfer_promise succeeds k f Ht)) as Hp.
    unfold ownOutcome, isTransfer in *. simpl in Hp. rewrite Hko in Hp.
    by destruct (mimeType f).
Qed.

Lemma job_failure_isolated_witness :
  files (handleDirtyFiles onlyB store0) !! "b" = Some (mkFile DRAWING_MIME None false) /\
  ("a", Rejected) ∈ promises (handleDirtyFiles onlyB store0) /\
  nextTick (handleDirtyFiles onlyB store0) = ["download:retry"].
Proof.
  assert (Hb0 : store0 !! "b" = Some (mkFile DRAWING_MIME None true)) by reflexivity.
  assert (Ha0 : store0 !! "a" = Some (mkFile DOCUMENT_MIME None true)) by reflexivity.
  assert (Hok : onlyB "b" = true) by reflexivity.
  assert (Hko : onlyB "a" = false) by reflexivity.
  pose proof (job_failure_isolated onlyB onlyB store0 "b" _ Hb0 eq_refl eq_refl)
    as (_ & _ & _ & _ & Hb & _).
  pose proof (job_failure_isolated onlyB onlyB store0 "a" _ Ha0 eq_refl eq_refl)
    as (_ & _ & _ & _ & _ & Ha).
  destruct (Ha eq_refl Hko) as (Hrej & _ & _ & Hretry).
  split; [exact (Hb eq_refl Hok)|]. split; [exact Hrej | exact Hretry].
Defined.

(** C7.  A pass re-enumerates the pending files on the store left by the
    settlement of the whole batch and gives exactly one signal: if none
    is pending it emits [download:clean] before returning and defers
    nothing; otherwise it emits nothing before returning and hands the
    emission of [download:retry], an event the plugin itself listens to,
    to [process.nextTick]. *)
Theorem exactly_one_signal (succeeds : string -> bool) (fs : gmap string File) :
  let r := handleDirtyFiles succeeds fs in
  (files r, promises r)
    = ((allSettled succeeds (findFiles dirty fs) fs).2,
       (allSettled succeeds (findFiles dirty fs) fs).1) /\
  ((findFiles dirty (files r) = [] /\
    emitted r = ["download:clean"] /\ nextTick r = [])
   \/
   (findFiles dirty (files r) <> [] /\
    emitted r = [] /\ nextTick r = ["download:retry"] /\
    listens "download:retry" = true)).
Proof.
  unfold handleDirtyFiles.
  destruct (Nat.ltb_spec 0
    (length (findFiles dirty (allSettled succeeds (findFiles dirty fs) fs).2)))
    as [Hlt|Hle]; simpl; (split; [done|]).
  - right. repeat split; try done. intros E. rewrite E in Hlt. simpl in Hlt. lia.
  - left. repeat split; try done. destruct (findFiles dirty _); [done|simpl in Hle; lia].
Qed.
End DownloadTheorems.


(** * Further properties *)

(** ** Order of service *)

Module ScheduleFacts.
Import QuotaLimiter RateWindow RateWindowFacts QueueFacts QueueClaims Schedule.

Lemma pending_app js1 js2 : pending (js1 ++ js2) = pending js1 ++ pending js2.
Proof.
  induction js1 as [|j js1 IH]; simpl; [done|].
  destruct (if notStarted j then Job.func j else None); simpl; by rewrite IH.
Qed.

Lemma pending_filter_keeps minTime js :
  pending (List.filter (keeps minTime) js) = pending js.
Proof.
  induction js as [|j js IH]; simpl; [done|].
  destruct (keeps minTime j) eqn:E; simpl; rewrite IH; [done|].
  unfold keeps in E. apply orb_false_iff in E as [E _].
  apply negb_false_iff in E. by rewrite (truthy_not_notStarted j E).
Qed.

Lemma started_not_pending now j :
  now <> 0 -> notStarted (Job.start now j) = false.
Proof.
  intros H. apply truthy_not_notStarted. unfold Job.truthy_ts. simpl.
  by apply negb_true_iff, Z.eqb_neq.
Qed.

Lemma startFirst_pending now js :
  now <> 0 ->
  match startFirst now js with
  | Some (js', f) => pending js = f :: pending js'
  | None => pending js = []
  end.
Proof.
  intros Hnow. induction js as [|j js IH]; simpl; [done|].
  destruct (if notStarted j then Job.func j else None) as [f|] eqn:E.
  - simpl. by rewrite (started_not_pending now j Hnow).
  - destruct (startFirst now js) as [[js' f]|]; simpl; [|done].
    by rewrite E.
Qed.

Lemma startJobs_fifo n now : forall st d st' fs,
  now <> 0 -> startJobs n now st d = (st', fs) ->
  fs = d ++ take n (pending (jobs st)) /\
  pending (jobs st') = drop n (pending (jobs st)).
Proof.
  induction n as [|n IH]; intros st d st' fs Hnow; simpl.
  - intros [= <- <-]. by rewrite take_0, drop_0, app_nil_r.
  - pose proof (startFirst_pending now (jobs st) Hnow) as HP.
    destruct (startFirst now (jobs st)) as [[js f]|].
    + intros H. destruct (IH _ _ _ _ Hnow H) as [-> ->]. simpl.
      rewrite HP. simpl. by rewrite <- app_assoc.
    + intros [= <- <-]. rewrite HP. simpl. by rewrite app_nil_r.
Qed.

Lemma startJobs_none n now st d :
  pending (jobs st) = [] -> startJobs n now st d = (st, d).
Proof.
  intros HP. destruct n as [|n]; simpl; [done|].
  assert (startFirst now (jobs st) = None) as ->; [|done].
  clear n d. induction (jobs st) as [|j js IH]; simpl in *; [done|].
  destruct (if notStarted j then Job.func j else None); [done|].
  by rewrite IH.
Qed.


Lemma setLimit_ts_nonneg q s now st :
  0 <= now ->
  (forall l, currentLimit st = Some l -> 0 <= Limit.ts l) ->
  forall l, currentLimit (setLimit q s now st).2 = Some l -> 0 <= Limit.ts l.
Proof.
  intros Hnow H. destruct (setLimit_cases q s now st) as [-> | (-> & _)]; [done|].
  simpl. intros l [= <-]. simpl. unfold stamp. destruct (currentLimit st); lia.
Qed.

(** With the clock after the epoch, whatever a tick starts leaves the
    pending list from its front. *)
Lemma handleQueue_pending now st st' fs :
  0 <= now ->
  (forall l, currentLimit st = Some l -> 0 <= Limit.ts l) ->
  handleQueue now st = Some (st', fs) ->
  fs ++ pending (jobs st') = pending (jobs st).
Proof.
  intros Hnow Hts H.
  destruct (handleQueue_inv _ _ _ _ H)
    as [(-> & -> & _) | (l & aq & HR & E & HT & HA & HD)]; [done|].
  assert (now <> 0).
  { specialize (Hts l E). unfold ms, DELAY_AFTER_ERROR in HT. lia. }
  destruct (startJobs_fifo _ _ _ _ _ _ H0 HD) as [-> ->].
  simpl. rewrite take_drop. apply pending_filter_keeps.
Qed.

Lemma step_ts_nonneg e st st' :
  match clock e with Some now => 0 <= now | None => True end ->
  (forall l, currentLimit st = Some l -> 0 <= Limit.ts l) ->
  step e st = Some st' ->
  forall l, currentLimit st' = Some l -> 0 <= Limit.ts l.
Proof.
  intros Hc H. destruct e as [q s now|f|now|now| |b now]; simpl in *.
  - intros [= <-]. unfold setInitialLimit. by apply setLimit_ts_nonneg.
  - by intros [= <-].
  - destruct (handleQueue now st) as [[st1 fs]|] eqn:E; [|done].
    intros [= <-]. by rewrite (handleQueue_currentLimit _ _ _ _ E).
  - unfold speedup. destruct (currentLimit st) as [l0|] eqn:E; [|done].
    intros [= <-]. apply setLimit_ts_nonneg; [done|]. by rewrite E.
  - by intros [= <-].
  - intros [= <-]. unfold jobRejected. destruct b as [[|]|]; [|done|done].
    unfold slowdown. destruct (currentLimit st) as [l0|] eqn:E.
    + simpl. apply setLimit_ts_nonneg; [done|]. by rewrite E.
    + simpl. intros l Hl. congruence.
Qed.

Lemma step_pending e st st' :
  (forall now, e <> Tick now) -> step e st = Some st' ->
  pending (jobs st') = pending (jobs st) ++ submitted [e].
Proof.
  intros HT. destruct e as [q s now|f|now|now| |b now]; simpl.
  - intros [= <-]. unfold setInitialLimit.
    rewrite (proj1 (setLimit_queue _ _ _ _)). simpl. by rewrite app_nil_r.
  - intros [= <-]. simpl. by rewrite pending_app.
  - by destruct (HT now).
  - unfold speedup. destruct (currentLimit st); [|done].
    intros [= <-]. rewrite (proj1 (setLimit_queue _ _ _ _)). by rewrite app_nil_r.
  - intros [= <-]. simpl. by rewrite app_nil_r.
  - intros [= <-]. unfold jobRejected. rewrite app_nil_r.
    destruct b as [[|]|]; [|done|done]. simpl. unfold slowdown.
    destruct (currentLimit st); [|done]. simpl.
    by rewrite (proj1 (setLimit_queue _ _ _ _)).
Qed.

Lemma runLog_pending es : forall st st' log,
  after_epoch es ->
  (forall l, currentLimit st = Some l -> 0 <= Limit.ts l) ->
  runLog es st = Some (st', log) ->
  log ++ pending (jobs st') = pending (jobs st) ++ submitted es.
Proof.
  induction es as [|e es IH]; intros st st' log Hep Hts; simpl.
  - intros [= <- <-]. by rewrite app_nil_r.
  - apply Forall_cons in Hep as [He Hep].
    assert (HT : (exists now, e = Tick now) \/ forall now, e <> Tick now).
    { destruct e; eauto; right; done. }
    destruct HT as [[now ->]|HT].
    + simpl in He.
      destruct (handleQueue now st) as [[st1 fs]|] eqn:E; [|done].
      destruct (runLog es st1) as [[st2 gs]|] eqn:ER; [|done].
      intros [= <- <-].
      assert (Hts1 : forall l, currentLimit st1 = Some l -> 0 <= Limit.ts l).
      { by rewrite (handleQueue_currentLimit _ _ _ _ E). }
      rewrite <- app_assoc, (IH _ _ _ Hep Hts1 ER).
      rewrite app_assoc. by rewrite (handleQueue_pending _ _ _ _ He Hts E).
    + assert (HR : runLog (e :: es) st =
                   match step e st with
                   | Some st1 => runLog es st1
                   | None => None
                   end).
      { destruct e; try done. by destruct (HT now). }
      simpl in HR. rewrite HR.
      destruct (step e st) as [st1|] eqn:E; [|done].
      intros H.
      rewrite (IH _ _ _ Hep (step_ts_nonneg e st st1 He Hts E) H).
      rewrite (step_pending e st st1 HT E).
      rewrite <- app_assoc. f_equal.
      by destruct e.
Qed.

Lemma runLog_run es : forall st, fst <$> runLog es st = run es st.
Proof.
  induction es as [|e es IH]; intros st; simpl; [done|].
  destruct e as [q s now|f|now|now| |b now]; simpl.
  - apply IH.
  - apply IH.
  - destruct (handleQueue now st) as [[st1 fs]|]; simpl; [|done].
    rewrite <- IH. by destruct (runLog es st1) as [[st2 gs]|].
  - destruct (speedup now st) as [[b' st1]|]; simpl; [apply IH|done].
  - apply IH.
  - apply IH.
Qed.

End ScheduleFacts.

Module ScheduleTheorems.
Import QuotaLimiter RateWindow RateWindowFacts RateWindowClaims QueueFacts QueueClaims.
Import Schedule ScheduleFacts.



(** X2.  Every job is run at most once, in the order of submission, and
    none is lost: over any sequence of events on a limiter built with no
    initial jobs, the clock never before the epoch, the callables handed to
    [process.nextTick] so far, followed by those still pending in the
    queue, are exactly the callables passed to [addJob], in order. *)
Theorem jobs_run_once_in_order (es : list event) (st : limiter) (log : list nat) :
  after_epoch es ->
  runLog es (new []) = Some (st, log) ->
  log ++ pending (jobs st) = submitted es /\ run es (new []) = Some st.
Proof.
  intros Hep H. split.
  - by apply (runLog_pending es (new []) st log Hep).
  - rewrite <- runLog_run, H. done.
Qed.

Lemma jobs_run_once_in_order_witness :
  runLog (SetInitialLimit 100 10 T0 :: addJobs 17 ++
          [Tick (T0 + 500); Tick (T0 + 1000)]) (new [])
    = Some (busy', seq 0 17) /\
  seq 0 17 ++ pending (jobs busy') = seq 0 17.
Proof.
  split; [vm_compute; reflexivity|].
  refine (proj1 (jobs_run_once_in_order
            (SetInitialLimit 100 10 T0 :: addJobs 17 ++
             [Tick (T0 + 500); Tick (T0 + 1000)]) busy' (seq 0 17) _ _)).
  - unfold after_epoch. repeat constructor; vm_compute; discriminate.
  - vm_compute. reflexivity.
Defined.

End ScheduleTheorems.

(** ** The window cap without overload *)

Module WindowFacts.
Import QuotaLimiter RateWindow RateWindowFacts QueueFacts QueueTheorems Schedule.

Lemma inWindow_later now now' l j :
  now <= now' -> inWindow now' l j = true -> inWindow now l j = true.
Proof.
  unfold inWindow. intros Hle. destruct (Job.truthy_ts j); simpl; [|done].
  destruct (Job.ts j) as [x|]; [|done].
  intros H. apply Z.ltb_lt in H. apply Z.ltb_lt. lia.
Qed.

(** Jobs only leave the window as the clock advances. *)
Lemma quotaUsed_later now now' l js :
  now <= now' -> quotaUsed now' l js <= quotaUsed now l js.
Proof.
  intros Hle. induction js as [|j js IH]; [done|].
  rewrite !quotaUsed_cons.
  destruct (inWindow now' l j) eqn:E.
  - rewrite (inWindow_later now now' l j Hle E). lia.
  - destruct (inWindow now l j); lia.
Qed.

Lemma quotaUsed_seconds now l l' js :
  Limit.seconds l = Limit.seconds l' -> quotaUsed now l js = quotaUsed now l' js.
Proof.
  intros Hs. unfold quotaUsed. do 2 f_equal.
  apply List.filter_ext. intros j. unfold inWindow. by rewrite Hs.
Qed.

Lemma quotaUsed_addJob now l js f :
  quotaUsed now l (js ++ [newJob f]) = quotaUsed now l js.
Proof.
  unfold quotaUsed. rewrite List.filter_app, length_app. simpl. lia.
Qed.

Lemma windowOK_later now now' st :
  now <= now' -> windowOK now st -> windowOK now' st.
Proof.
  intros Hle H l E. specialize (H l E).
  pose proof (quotaUsed_later now now' l (jobs st) Hle). lia.
Qed.

Lemma step_windowOK e st st' now :
  calm e = true ->
  match clock e with Some t => now <= t | None => True end ->
  windowOK now st -> step e st = Some st' ->
  windowOK (match clock e with Some t => t | None => now end) st'.
Proof.
  intros Hcalm Hc H.
  destruct e as [q s t|f|t|t| |b t]; simpl in *; try done.
  - intros [= <-] l E. simpl in *. rewrite quotaUsed_addJob. by apply H.
  - destruct (handleQueue t st) as [[st1 fs]|] eqn:EH; [|done].
    intros [= <-] l E.
    rewrite (handleQueue_currentLimit _ _ _ _ EH) in E.
    destruct (handleQueue_counts _ _ _ _ EH) as (_ & _ & _ & HW).
    destruct (HW l E) as [_ HQ].
    pose proof (windowOK_later now t st Hc H l E). lia.
  - unfold speedup. destruct (currentLimit st) as [l0|] eqn:E0; [|done].
    intros [= <-] l E.
    pose proof (windowOK_later now t st Hc H l0 E0) as H0.
    destruct (setLimit_cases (js_succ (Limit.queries l0)) (Limit.seconds l0) t st)
      as [HR | (HR & _)]; rewrite HR in E; simpl in E.
    + rewrite HR. simpl. rewrite E0 in E. injection E as <-. done.
    + rewrite HR. simpl. injection E as <-. simpl.
      rewrite (quotaUsed_seconds t _ l0) by done.
      pose proof (js_succ_ge (Limit.queries l0)). lia.
  - by intros [= <-].
  - destruct b as [[|]|]; [done| |]; intros [= <-] l E; simpl in *;
      by apply (windowOK_later now t st Hc H).
Qed.

Lemma run_windowOK es : forall st st' now,
  forallb calm es = true -> ascending now es ->
  windowOK now st -> run es st = Some st' ->
  windowOK (lastClock now es) st'.
Proof.
  induction es as [|e es IH]; intros st st' now Hcalm Hasc H; simpl.
  - by intros [= <-].
  - simpl in Hcalm. apply andb_true_iff in Hcalm as [He Hcalm].
    destruct (step e st) as [st1|] eqn:E; [|done].
    simpl in Hasc.
    pose proof (step_windowOK e st st1 now He) as HS.
    destruct (clock e) as [t|].
    + destruct Hasc as [Hle Hasc]. apply (IH st1 st' t Hcalm Hasc).
      by apply HS.
    + apply (IH st1 st' now Hcalm Hasc). by apply HS.
Qed.

End WindowFacts.

Module WindowTheorems.
Import QuotaLimiter RateWindow RateWindowClaims QueueClaims Schedule WindowFacts.

(** X3.  Without overload the window cap holds: from a state in which no
    more than [queries] jobs were started within the window, any sequence
    of [addJob], ticks, speedups and settlements other than quota errors,
    with a clock that never goes back, ends in a state in which, at the
    last clock reading, no more than [queries] jobs were started within
    the window. *)
Theorem window_cap_without_overload (es : list event) (st st' : limiter) (now : Z) :
  forallb calm es = true -> ascending now es ->
  windowOK now st -> run es st = Some st' ->
  windowOK (lastClock now es) st'.
Proof. apply run_windowOK. Qed.

Lemma window_cap_without_overload_witness :
  windowOK (T0 + 1000) calmEnd.
Proof.
  apply (window_cap_without_overload
           (addJobs 17 ++ [Tick (T0 + 500); Speedup (T0 + 600); Then;
                           Catch (Some false) (T0 + 700); Tick (T0 + 1000)])
           (setInitialLimit 100 10 T0 (new [])) calmEnd T0).
  - reflexivity.
  - vm_compute. repeat split; discriminate.
  - intros l E. vm_compute in E. injection E as <-. vm_compute. discriminate.
  - vm_compute. reflexivity.
Defined.

End WindowTheorems.

(** ** More on the limiter *)

Module LimiterFacts.
Import QuotaLimiter RateWindow RateWindowFacts QueueFacts Schedule ScheduleFacts.

Lemma filter_filter_and {A} (p q : A -> bool) (xs : list A) :
  List.filter p (List.filter q xs) = List.filter (fun x => p x && q x) xs.
Proof.
  induction xs as [|x xs IH]; simpl; [done|].
  destruct (q x); simpl.
  - rewrite andb_true_r. destruct (p x); by rewrite IH.
  - by rewrite andb_false_r.
Qed.

Lemma keeps_max a b j : keeps a j && keeps b j = keeps (Z.max a b) j.
Proof.
  unfold keeps. destruct (Job.truthy_ts j); simpl; [|done].
  destruct (Job.ts j) as [x|]; [|done].
  destruct (Z.leb_spec a x), (Z.leb_spec b x), (Z.leb_spec (Z.max a b) x);
    simpl; try done; lia.
Qed.

Lemma pending_saved st : pending (saved st) = [].
Proof.
  unfold saved. induction (jobs st) as [|j js IH]; simpl; [done|].
  destruct (Job.truthy_ts j) eqn:E; simpl; [|done].
  by rewrite (truthy_not_notStarted j E).
Qed.

Lemma quotaUsed_saved now l st :
  quotaUsed now l (saved st) = quotaUsed now l (jobs st).
Proof.
  unfold quotaUsed, saved. rewrite filter_filter_implied; [done|].
  intros j. unfold inWindow. by destruct (Job.truthy_ts j).
Qed.

Lemma runLog_running es : forall st st' log,
  runLog es st = Some (st', log) ->
  running st' = running st + Z.of_nat (length log) - Z.of_nat (settlements es).
Proof.
  induction es as [|e es IH]; intros st st' log; simpl.
  - intros [= <- <-]. simpl. lia.
  - destruct e as [q s now|f|now|now| |b now]; simpl.
    + intros H. rewrite (IH _ _ _ H). unfold setInitialLimit.
      by rewrite (proj2 (setLimit_queue _ _ _ _)).
    + intros H. by rewrite (IH _ _ _ H).
    + destruct (handleQueue now st) as [[st1 fs]|] eqn:E; [|done].
      destruct (runLog es st1) as [[st2 gs]|] eqn:ER; [|done].
      intros [= <- <-]. rewrite (IH _ _ _ ER).
      destruct (QueueTheorems.handleQueue_counts _ _ _ _ E) as [-> _].
      rewrite length_app. lia.
    + unfold speedup. destruct (currentLimit st) as [l|]; [|done]. simpl.
      intros H. rewrite (IH _ _ _ H).
      by rewrite (proj2 (setLimit_queue _ _ _ _)).
    + intros H. rewrite (IH _ _ _ H). simpl. lia.
    + intros H. rewrite (IH _ _ _ H). unfold jobRejected.
      destruct b as [[|]|]; simpl; [|lia|lia].
      assert (running (match slowdown now st with
                       | Some r => r.2 | None => st end)
              = running st) as ->; [|lia].
      unfold slowdown. destruct (currentLimit st); [|done]. simpl.
      by rewrite (proj2 (setLimit_queue _ _ _ _)).
Qed.

Lemma settlements_thrown es :
  (settlements es + thrown es = settled es)%nat.
Proof.
  induction es as [|e es IH]; simpl; [done|].
  destruct e as [q s now|f|now|now| |[b|] now]; simpl; lia.
Qed.



End LimiterFacts.

Module LimiterTheorems.
Import QuotaLimiter RateWindow RateWindowFacts RateWindowClaims QueueFacts QueueClaims.
Import Schedule ScheduleFacts LimiterFacts.

(** X4.  A limiter without a rate window cannot tick: [setInitialLimit]
    with a value that is not positive, on a limiter fresh from the
    constructor, sets no window (it only records the pair as
    [initialLimit]), and then [handleQueue], [speedup] and [slowdown] all
    throw on reading a property of the missing [currentLimit]. *)
Theorem no_window_no_tick (initialJobs : list Job.job) (q s t now : Z) :
  q <= 0 \/ s <= 0 ->
  let st := setInitialLimit q s t (new initialJobs) in
  st = mkLimiter initialJobs 0 None (Some (q, s)) /\
  handleQueue now st = None /\ speedup now st = None /\ slowdown now st = None.
Proof.
  intros H st.
  assert (E : st = mkLimiter initialJobs 0 None (Some (q, s))).
  { unfold st, setInitialLimit. by rewrite setLimit_nonpositive. }
  by rewrite E.
Qed.

Lemma no_window_no_tick_witness :
  handleQueue (T0 + 500) (setInitialLimit 0 10 T0 (new [])) = None.
Proof.
  exact (proj1 (proj2 (no_window_no_tick [] 0 10 T0 (T0 + 500)
                         ltac:(left; lia)))).
Defined.

(** X5.  Evictions compose: removing the jobs started before [b] and then
    those started before [a] is removing those started before the later
    of the two; in particular [removeOlderThan] is idempotent. *)
Theorem removeOlderThan_compose (a b : Z) (st : limiter) :
  removeOlderThan a (removeOlderThan b st) = removeOlderThan (Z.max a b) st /\
  removeOlderThan a (removeOlderThan a st) = removeOlderThan a st.
Proof.
  assert (H : forall x y, removeOlderThan x (removeOlderThan y st)
                          = removeOlderThan (Z.max x y) st).
  { intros x y. unfold removeOlderThan, with_jobs. simpl. f_equal.
    rewrite filter_filter_and. apply List.filter_ext. intros j. apply keeps_max. }
  split; [apply H|]. by rewrite H, Z.max_id.
Qed.

(** X6.  The list handed to [saveHandler] restores the quota accounting
    and nothing else: it holds the same number of jobs started within any
    window as the queue it was taken from, and a limiter constructed from
    it never runs any of those jobs again, so that a tick on it, before
    any [addJob], starts nothing. *)
Theorem saved_jobs_count_but_never_rerun (st0 st' : limiter) (q s t now : Z)
    (fs : list nat) :
  handleQueue now (setInitialLimit q s t (new (saved st0))) = Some (st', fs) ->
  fs = [] /\ running st' = 0 /\
  (forall now' l, quotaUsed now' l (jobs (new (saved st0)))
                  = quotaUsed now' l (jobs st0)).
Proof.
  intros H. split; [|split].
  - destruct (handleQueue_inv _ _ _ _ H)
      as [(_ & -> & _) | (l & aq & _ & _ & _ & _ & HD)]; [done|].
    rewrite startJobs_none in HD; [by injection HD as _ <-|].
    simpl. rewrite pending_filter_keeps. unfold setInitialLimit.
    rewrite (proj1 (setLimit_queue _ _ _ _)). simpl. apply pending_saved.
  - destruct (QueueTheorems.handleQueue_counts _ _ _ _ H) as [-> _].
    unfold setInitialLimit. rewrite (proj2 (setLimit_queue _ _ _ _)). simpl.
    destruct (handleQueue_inv _ _ _ _ H)
      as [(_ & -> & _) | (l & aq & _ & _ & _ & _ & HD)]; [done|].
    rewrite startJobs_none in HD; [by injection HD as _ <-|].
    simpl. rewrite pending_filter_keeps. unfold setInitialLimit.
    rewrite (proj1 (setLimit_queue _ _ _ _)). simpl. apply pending_saved.
  - intros now' l. simpl. apply quotaUsed_saved.
Qed.

Lemma saved_jobs_count_but_never_rerun_witness :
  handleQueue (T0 + 2000) restored = Some (restored, []) /\
  quotaUsed (T0 + 2000) (Limit.mkLimit 100 10 0) (jobs (new (saved busy'))) = 17.
Proof.
  split; [reflexivity|].
  destruct (saved_jobs_count_but_never_rerun busy' restored 100 10 T0 (T0 + 2000) []
              eq_refl) as (_ & _ & H).
  rewrite H. reflexivity.
Defined.

(** X7.  A slowdown never raises the rate window: from a positive window
    it leaves [queries] and [seconds] positive and no larger than they
    were; when it is accepted [queries] is strictly smaller and the window
    is stamped with the time of the slowdown. *)
Theorem slowdown_never_raises (st st' : limiter) (l l' : Limit.limit)
    (now : Z) (accepted : bool) :
  currentLimit st = Some l -> 0 < Limit.queries l -> 0 < Limit.seconds l ->
  slowdown now st = Some (accepted, st') -> currentLimit st' = Some l' ->
  0 < Limit.queries l' <= Limit.queries l /\
  0 < Limit.seconds l' <= Limit.seconds l /\
  (accepted = true -> Limit.queries l' < Limit.queries l /\ Limit.ts l' = now).
Proof.
  intros E Hq Hs. unfold slowdown, slowdownLimits. rewrite E.
  intros [= H] E'.
  assert (Hhalf : Limit.queries l / 2 < Limit.queries l)
    by (apply Z.div_lt; lia).
  destruct (Z.ltb_spec 1 (Limit.seconds l)); simpl in H.
  - assert (Limit.seconds l / 2 < Limit.seconds l) by (apply Z.div_lt; lia).
    destruct (setLimit_cases (Limit.queries l / 2) (Limit.seconds l / 2) now st)
      as [HR | (HR & ? & ? & _)]; rewrite HR in H; injection H as <- <-.
    + rewrite E in E'. injection E' as <-. repeat split; (lia || done).
    + simpl in E'. injection E' as <-. simpl. unfold stamp. rewrite E.
      repeat split; lia.
  - destruct (setLimit_cases (Limit.queries l / 2) 1 now st)
      as [HR | (HR & ? & ? & _)]; rewrite HR in H; injection H as <- <-.
    + rewrite E in E'. injection E' as <-. repeat split; (lia || done).
    + simpl in E'. injection E' as <-. simpl. unfold stamp. rewrite E.
      repeat split; lia.
Qed.

Lemma slowdown_never_raises_witness :
  slowdown (T0 + 6000) (setInitialLimit 20 10 T0 (new []))
    = Some (true, with_currentLimit (setInitialLimit 20 10 T0 (new []))
                    (Limit.mkLimit 10 5 (T0 + 6000))) /\
  0 < 10 <= 20 /\ 0 < 5 <= 10.
Proof.
  split; [reflexivity|].
  destruct (slowdown_never_raises (setInitialLimit 20 10 T0 (new []))
              (with_currentLimit (setInitialLimit 20 10 T0 (new []))
                 (Limit.mkLimit 10 5 (T0 + 6000)))
              (Limit.mkLimit 20 10 0) (Limit.mkLimit 10 5 (T0 + 6000))
              (T0 + 6000) true eq_refl ltac:(simpl; lia) ltac:(simpl; lia)
              eq_refl eq_refl) as (Hq & Hs & _).
  split; [exact Hq | exact Hs].
Defined.

(** X8.  A burst of overload signals is absorbed: after a slowdown that
    was accepted at [t1], any number of further slowdowns, each less than
    5 seconds after [t1], leave the limiter exactly as the first one left
    it. *)
Theorem overload_burst_absorbed (st st1 : limiter) (t1 : Z) (times : list Z) :
  slowdown t1 st = Some (true, st1) ->
  Forall (fun t => t - t1 < ms DELAY_AFTER_ERROR) times ->
  slowdowns times st1 = Some st1.
Proof.
  intros H. unfold slowdown in H.
  destruct (currentLimit st) as [l|] eqn:E; [|done]. injection H as H.
  destruct (setLimit_cases (slowdownLimits l).1 (slowdownLimits l).2 t1 st)
    as [HR | (HR & _)]; rewrite HR in H; [discriminate H|].
  injection H as <-. unfold stamp. rewrite E.
  induction 1 as [|t times Ht _ IH]; simpl; [done|].
  set (l1 := Limit.mkLimit (slowdownLimits l).1 (slowdownLimits l).2 t1) in *.
  rewrite (setLimit_cooling _ _ t (with_currentLimit st l1) l1 eq_refl Ht).
  simpl. exact IH.
Qed.

Lemma overload_burst_absorbed_witness :
  slowdowns [T0 + 6001; T0 + 7000; T0 + 10999]
    (with_currentLimit (setInitialLimit 20 10 T0 (new []))
       (Limit.mkLimit 10 5 (T0 + 6000)))
  = Some (with_currentLimit (setInitialLimit 20 10 T0 (new []))
            (Limit.mkLimit 10 5 (T0 + 6000))).
Proof.
  apply (overload_burst_absorbed (setInitialLimit 20 10 T0 (new [])) _ (T0 + 6000)).
  - reflexivity.
  - repeat constructor; vm_compute; reflexivity.
Defined.

(** X9.  [running] counts the jobs started and not yet settled, except
    that it never gives back the slot of a job rejected with [null] or
    [undefined]: over any sequence of events it is its initial value, plus
    the number of callables the ticks handed to [process.nextTick], minus
    the number of settlements whose handler ran to its end (every [.then],
    and every [.catch] of a rejection on which [err.isQuotaError] can be
    read).  So it exceeds the number of jobs in flight by the number of
    rejections with [null] or [undefined], whose handler throws before
    [this.running--]; no other operation changes it. *)
Theorem running_counts_in_flight (es : list event) (st st' : limiter)
    (log : list nat) :
  runLog es st = Some (st', log) ->
  running st' = running st + Z.of_nat (length log) - Z.of_nat (settlements es) /\
  running st' = running st + (Z.of_nat (length log) - Z.of_nat (settled es))
                + Z.of_nat (thrown es).
Proof.
  intros H. pose proof (runLog_running es st st' log H).
  pose proof (settlements_thrown es). lia.
Qed.

Lemma running_counts_in_flight_witness :
  running leakyEnd = 0 + 16 - 2 /\
  running leakyEnd = 0 + (16 - 3) + 1.
Proof.
  exact (running_counts_in_flight leaky (new []) leakyEnd (seq 0 16)
           ltac:(vm_compute; reflexivity)).
Defined.



(** X20.  The two halves of the limiter do not interfere: a tick never
    changes the rate window, and an update of the rate window, whether it
    comes from [setInitialLimit], [setLimit], [slowdown] or [speedup] and
    whether it is accepted or not, never changes the queue or
    [running]. *)
Theorem queue_and_window_are_separate (st : limiter) (now : Z) :
  (forall st' fs, handleQueue now st = Some (st', fs) ->
     currentLimit st' = currentLimit st) /\
  (forall u r, propose u now st = Some r ->
     jobs r.2 = jobs st /\ running r.2 = running st).
Proof.
  split.
  - intros st' fs H. by apply (handleQueue_currentLimit now st st' fs).
  - intros u r. destruct u as [q s|q s| |]; simpl.
    + intros [= <-]. apply (setLimit_queue q s now (with_initialLimit st q s)).
    + intros [= <-]. apply setLimit_queue.
    + unfold slowdown. destruct (currentLimit st); [|done].
      intros [= <-]. apply setLimit_queue.
    + unfold speedup. destruct (currentLimit st); [|done].
      intros [= <-]. apply setLimit_queue.
Qed.

Lemma queue_and_window_are_separate_witness :
  currentLimit busy' = currentLimit busy.
Proof.
  exact (proj1 (queue_and_window_are_separate busy (T0 + 1000)) busy' [16%nat]
           eq_refl).
Defined.

End LimiterTheorems.

(** ** More on the download loop *)

Module DownloadLoopFacts.
Import FilesStructure DownloadPlugin DownloadFacts DownloadExamples DownloadLoop.
Local Open Scope string_scope.


Lemma ownEffect_setDirty succeeds k f :
  exists b, ownEffect succeeds (k, f) f = setDirty b f.
Proof.
  assert (Hid : f = setDirty (dirty f) f) by by destruct f.
  unfold ownEffect. simpl.
  destruct (mimeType f); try (by exists false).
  - destruct (succeeds k); [by exists false|by exists (dirty f)].
  - destruct (succeeds k); [by exists false|by exists true].
  - destruct (size f); [destruct (succeeds k); [by exists false|]|];
      by exists (dirty f).
Qed.

(** What a pass leaves under every key. *)
Lemma handleDirtyFiles_lookup succeeds (fs : gmap string File) k :
  files (handleDirtyFiles succeeds fs) !! k =
  match fs !! k with
  | Some f => if dirty f then Some (ownEffect succeeds (k, f) f) else Some f
  | None => None
  end.
Proof.
  destruct (fs !! k) as [f|] eqn:E.
  - destruct (dirty f) eqn:D; [by apply handleDirtyFiles_own|].
    unfold handleDirtyFiles.
    assert (Hout : k ∉ (findFiles dirty fs).*1).
    { intros Hin. apply list_elem_of_fmap in Hin as ([k' f'] & -> & Hin).
      apply findFiles_dirty_elem in Hin as [Hk Hd]. simpl in *.
      rewrite E in Hk. injection Hk as <-. congruence. }
    destruct (0 <? _)%nat; simpl; by rewrite allSettled_other.
  - unfold handleDirtyFiles.
    assert (Hout : k ∉ (findFiles dirty fs).*1).
    { intros Hin. apply list_elem_of_fmap in Hin as ([k' f'] & -> & Hin).
      apply findFiles_dirty_elem in Hin as [Hk Hd]. simpl in *. congruence. }
    destruct (0 <? _)%nat; simpl; by rewrite allSettled_other.
Qed.

Lemma pending_after_was_pending succeeds (fs : gmap string File) k f :
  (k, f) ∈ findFiles dirty (files (handleDirtyFiles succeeds fs)) ->
  (k, f) ∈ findFiles dirty fs.
Proof.
  rewrite !findFiles_dirty_elem, handleDirtyFiles_lookup.
  destruct (fs !! k) as [f0|]; [|by intros [? _]].
  destruct (dirty f0) eqn:D.
  - intros [[= <-] Hd]. split; [|done]. f_equal.
    unfold ownEffect in *. simpl in *.
    destruct f0 as [m sz d]. simpl in *. subst d.
    destruct m; try done; try (by destruct (succeeds k)).
    destruct sz; [by destruct (succeeds k)|done].
  - intros [[= <-] Hd]. congruence.
Qed.



Lemma allSettled_promises succeeds batch : forall (fs : gmap string File),
  (allSettled succeeds batch fs).1
  = (fun file => (file.1, ownOutcome succeeds file))
      <$> filter (fun file => is_Some (promiseFor succeeds file)) batch.
Proof.
  induction batch as [|file rest IH]; intros fs; simpl; [done|].
  rewrite filter_cons.
  destruct (decide (is_Some (promiseFor succeeds file))) as [[p E]|HN].
  - rewrite E. simpl. rewrite IH.
    by rewrite (DownloadTheorems.promiseFor_outcome _ _ _ _ E).
  - destruct (promiseFor succeeds file) as [p|] eqn:E; [|apply IH].
    destruct HN. eauto.
Qed.




End DownloadLoopFacts.

Module DownloadLoopTheorems.
Import FilesStructure DownloadPlugin DownloadFacts DownloadExamples.
Import DownloadLoop DownloadLoopFacts.
Local Open Scope string_scope.

(** X10.  A pass changes nothing but [dirty] flags of pending files: it
    adds no file and removes none, it leaves every file that was clean
    exactly as it was, and of a pending file it changes at most the
    [dirty] flag. *)
Theorem pass_changes_only_pending_flags (succeeds : string -> bool)
    (fs : gmap string File) (k : string) :
  let r := handleDirtyFiles succeeds fs in
  (fs !! k = None -> files r !! k = None) /\
  (forall f, fs !! k = Some f -> dirty f = false -> files r !! k = Some f) /\
  (forall f, fs !! k = Some f -> dirty f = true ->
     exists b, files r !! k = Some (setDirty b f)).
Proof.
  intros r. unfold r. rewrite handleDirtyFiles_lookup.
  split; [by intros ->|]. split.
  - intros f -> D. by rewrite D.
  - intros f -> D. rewrite D.
    destruct (ownEffect_setDirty succeeds k f) as (b & ->). by exists b.
Qed.

Lemma pass_changes_only_pending_flags_witness :
  files (handleDirtyFiles never store0) !! "c"
  = Some (mkFile (OtherMime "image/png") (Some 3) false).
Proof.
  assert (H : store0 !! "c" = Some (mkFile (OtherMime "image/png") (Some 3) false))
    by reflexivity.
  exact (proj1 (proj2 (pass_changes_only_pending_flags never store0 "c")) _ H eq_refl).
Defined.

(** X11.  A pass makes no file pending: every file pending after a pass
    was pending before it, with the same attributes. *)
Theorem pass_adds_no_pending (succeeds : string -> bool)
    (fs : gmap string File) (k : string) (f : File) :
  (k, f) ∈ findFiles dirty (files (handleDirtyFiles succeeds fs)) ->
  (k, f) ∈ findFiles dirty fs.
Proof. apply pending_after_was_pending. Qed.

Lemma pass_adds_no_pending_witness :
  ("a", mkFile DOCUMENT_MIME None true) ∈ findFiles dirty store0.
Proof.
  apply (pass_adds_no_pending onlyB store0).
  vm_compute. left.
Defined.











(** X17.  The order in which the jobs of a batch run to their settlement
    does not matter: for a batch of files with different ids, any
    reordering leaves the same store and the same settlements, reordered
    alike. *)
Theorem batch_order_irrelevant (succeeds : string -> bool)
    (batch batch' : list (string * File)) (fs : gmap string File) :
  NoDup batch.*1 -> batch ≡ₚ batch' ->
  (allSettled succeeds batch fs).2 = (allSettled succeeds batch' fs).2 /\
  (allSettled succeeds batch fs).1 ≡ₚ (allSettled succeeds batch' fs).1.
Proof.
  intros Hnd Hperm. split; [by apply allSettled_order|].
  rewrite !allSettled_promises. by rewrite Hperm.
Qed.

Lemma batch_order_irrelevant_witness :
  (allSettled onlyB
     [("a", mkFile DOCUMENT_MIME None true); ("b", mkFile DRAWING_MIME None true)]
     store0).2
  = (allSettled onlyB
       [("b", mkFile DRAWING_MIME None true); ("a", mkFile DOCUMENT_MIME None true)]
       store0).2.
Proof.
  refine (proj1 (batch_order_irrelevant onlyB _ _ store0 _ _)).
  - apply (bool_decide_unpack _). vm_compute. exact I.
  - apply perm_swap.
Defined.

End DownloadLoopTheorems.

(** ** Paths *)

Module PathsFacts.
Import Paths.
Local Open Scope string_scope.

Lemma split_not_nil sep s : split sep s <> [].
Proof.
  destruct s as [|c rest]; simpl; [done|].
  destruct (Ascii.eqb c sep); [done|]. by destruct (split sep rest).
Qed.

Lemma split_free sep s : occurs sep s = false -> split sep s = [s].
Proof.
  induction s as [|c rest IH]; simpl; [done|].
  intros H. apply orb_false_iff in H as [-> H]. by rewrite (IH H).
Qed.

Lemma split_app sep dir base :
  split sep (dir ++ String sep base) = (split sep dir ++ split sep base)%list.
Proof.
  induction dir as [|c rest IH]; simpl.
  - by rewrite Ascii.eqb_refl.
  - destruct (Ascii.eqb c sep); rewrite IH; [done|].
    pose proof (split_not_nil sep rest). by destruct (split sep rest).
Qed.

Lemma join_split sep s : join sep (split sep s) = s.
Proof.
  induction s as [|c rest IH]; simpl; [done|].
  destruct (Ascii.eqb_spec c sep) as [->|Hne].
  - pose proof (split_not_nil sep rest).
    destruct (split sep rest) as [|p ps] eqn:E; [done|].
    simpl. simpl in IH. by rewrite IH.
  - pose proof (split_not_nil sep rest).
    destruct (split sep rest) as [|p ps] eqn:E; [done|].
    destruct ps as [|q qs]; simpl in *; by rewrite <- IH.
Qed.

Lemma removelast_snoc {A} (xs : list A) (x : A) :
  removelast (xs ++ [x])%list = xs.
Proof. by rewrite removelast_app, app_nil_r. Qed.

(** The last separator of a string in which it occurs. *)
Lemma last_separator sep s :
  occurs sep s = true ->
  exists dir base, s = dir ++ String sep base /\ occurs sep base = false.
Proof.
  induction s as [|c rest IH]; simpl; [done|].
  destruct (occurs sep rest) eqn:E.
  - intros _. destruct (IH eq_refl) as (dir & base & -> & Hb).
    by exists (String c dir), base.
  - rewrite orb_false_r. intros H. apply Ascii.eqb_eq in H as ->.
    by exists "", rest.
Qed.

Lemma ensureDir_of_parent sep dir base :
  occurs sep base = false ->
  ensureDir sep (dir ++ String sep base) = Some dir.
Proof.
  intros Hb. unfold ensureDir. rewrite split_app, (split_free sep base Hb).
  assert (Hlen : (length (split sep dir ++ [base])%list <? 2)%nat = false).
  { rewrite length_app. simpl. apply Nat.ltb_ge.
    pose proof (split_not_nil sep dir).
    destruct (split sep dir); [done|simpl; lia]. }
  rewrite Hlen. by rewrite removelast_snoc, join_split.
Qed.

End PathsFacts.

Module PathsTheorems.
Import Stdlib.Strings.Ascii.
Import Paths PathsFacts.
Local Open Scope string_scope.

(** X18.  [ensureDir] makes sure of the directory that holds the file: for
    a path without a separator it returns without touching the file
    system, and otherwise the directory it looks up and creates is the
    path up to its last separator, so that the directory, the separator
    and a last component free of separators make up the path again. *)
Theorem ensureDir_parent (sep : Ascii.ascii) (filePath : string) :
  (occurs sep filePath = false -> ensureDir sep filePath = None) /\
  (occurs sep filePath = true ->
   exists dir base,
     ensureDir sep filePath = Some dir /\
     filePath = dir ++ String sep base /\ occurs sep base = false).
Proof.
  split.
  - intros H. unfold ensureDir. by rewrite (split_free sep filePath H).
  - intros H. destruct (last_separator sep filePath H) as (dir & base & -> & Hb).
    exists dir, base. split; [by apply ensureDir_of_parent|done].
Qed.

Lemma ensureDir_parent_witness :
  ensureDir "/"%char ".wgd/files/1AbC.gdoc" = Some ".wgd/files" /\
  ensureDir "/"%char "drive.json" = None.
Proof.
  split; [reflexivity|].
  exact (proj1 (ensureDir_parent "/"%char "drive.json") eq_refl).
Defined.

End PathsTheorems.

(** ** The other plugins *)

Module PluginTheorems.
Import ListRootPlugin ConfigDirPlugin.
Local Open Scope string_scope.




Lemma initConfigDir_done env params :
  initialisable env params ->
  initConfigDir env params =
    (None, [MkdirConfig; MkdirHooks; WriteConfig (driveConfig params)]).
Proof.
  intros (F & D & C & M1 & M2 & W). unfold initConfigDir.
  rewrite F, D, M1, M2, W. simpl.
  by destruct C as [-> | ->]; [|rewrite andb_false_r].
Qed.

Lemma initConfigDir_failed env params :
  ~ initialisable env params ->
  exists e ops, initConfigDir env params = (Some e, ops) /\
                forall cfg, WriteConfig cfg ∉ ops.
Proof.
  unfold initialisable, initConfigDir. intros H.
  destruct (found env); [|eexists _, _; split; [done|set_solver]..].
  destruct (truthy (drive params)); simpl;
    [|eexists _, _; split; [done|set_solver]].
  destruct (negb (truthy (service_account params)) &&
            negb (truthy (client_id params))) eqn:C;
    [eexists _, _; split; [done|set_solver]|].
  destruct (mkdirConfig env); [eexists _, _; split; [done|set_solver]|].
  destruct (mkdirHooks env); [eexists _, _; split; [done|set_solver]|].
  destruct (writeFile env); [eexists _, _; split; [done|set_solver]|].
  destruct H. repeat split; try done.
  destruct (truthy (service_account params)); [by left|].
  destruct (truthy (client_id params)); [by right|done].
Qed.

Lemma initialisable_dec env params :
  initialisable env params \/ ~ initialisable env params.
Proof.
  unfold initialisable.
  destruct (found env); [|right; by intros (? & _)..].
  destruct (truthy (drive params)); [|right; by intros (_ & ? & _)].
  destruct (mkdirConfig env); [right; by intros (_ & _ & _ & ? & _)|].
  destruct (mkdirHooks env); [right; by intros (_ & _ & _ & _ & ? & _)|].
  destruct (writeFile env); [right; by intros (_ & _ & _ & _ & _ & ?)|].
  destruct (truthy (service_account params)); [left; auto 10|].
  destruct (truthy (client_id params)); [left; auto 10|].
  right. by intros (_ & _ & [?|?] & _).
Qed.

(** X22.  [initConfigDir] never writes over anything, validates before it
    writes and saves one kind of credentials.  If something exists at
    [config_dir] it throws one of its own messages and writes nothing.
    Whatever it writes, nothing existed at [config_dir], [drive] was given
    and [service_account] or [client_id] was given.  It returns without
    throwing exactly when it has written a configuration, and that is
    exactly when, moreover, [fs.mkdirSync] succeeded for [config_dir] and
    for [config_dir/hooks] and the write of [drive.json] succeeded: in any
    other case it throws, possibly leaving the directories behind.  The
    configuration written carries the service account alone when one is
    given, and the client id and secret alone otherwise. *)
Theorem initConfigDir_outcomes (env : Fs) (params : Params) :
  (found env <> Missing ->
   exists msg, initConfigDir env params = (Some (Message msg), [])) /\
  ((initConfigDir env params).2 <> [] ->
   found env = Missing /\ truthy (drive params) = true /\
   (truthy (service_account params) = true \/ truthy (client_id params) = true)) /\
  ((exists cfg, WriteConfig cfg ∈ (initConfigDir env params).2) <->
   initialisable env params) /\
  ((initConfigDir env params).1 = None <-> initialisable env params) /\
  (forall cfg, WriteConfig cfg ∈ (initConfigDir env params).2 ->
     cfg_drive cfg = drive params /\
     if truthy (service_account params)
     then cfg_service_account cfg = service_account params /\
          cfg_client_id cfg = None /\ cfg_client_secret cfg = None
     else cfg_service_account cfg = None /\
          cfg_client_id cfg = client_id params /\
          cfg_client_secret cfg = client_secret params).
Proof.
  split; [|split; [|split; [|split]]].
  - unfold initConfigDir. destruct (found env); [done|by eexists..].
  - unfold initConfigDir. destruct (found env); [|done..].
    destruct (truthy (drive params)); [|done]. simpl.
    destruct (truthy (service_account params)); [auto|].
    destruct (truthy (client_id params)); [auto|done].
  - split.
    + intros [cfg Hin].
      destruct (initialisable_dec env params) as [H|H]; [done|].
      destruct (initConfigDir_failed env params H) as (e & ops & E & Hno).
      rewrite E in Hin. by destruct (Hno cfg).
    + intros H. rewrite (initConfigDir_done env params H).
      exists (driveConfig params). set_solver.
  - split.
    + intros HN.
      destruct (initialisable_dec env params) as [H|H]; [done|].
      destruct (initConfigDir_failed env params H) as (e & ops & E & _).
      by rewrite E in HN.
    + intros H. by rewrite (initConfigDir_done env params H).
  - intros cfg Hin.
    destruct (initialisable_dec env params) as [H|H].
    + rewrite (initConfigDir_done env params H) in Hin.
      assert (cfg = driveConfig params) as -> by set_solver.
      unfold driveConfig. by destruct (truthy (service_account params)).
    + destruct (initConfigDir_failed env params H) as (e & ops & E & Hno).
      rewrite E in Hin. by destruct (Hno cfg).
Qed.

Lemma initConfigDir_outcomes_witness :
  (exists msg,
     initConfigDir (mkFs Directory None None None)
       (mkParams ".wgd" (Some "https://drive.google.com/drive/folders/x")
          None None false None (Some "sa.json") None None)
     = (Some (Message msg), [])) /\
  (initConfigDir (mkFs Missing None (Some "EACCES") None)
     (mkParams ".wgd" (Some "https://drive.google.com/drive/folders/x")
        None None false None (Some "sa.json") None None)).1 <> None.
Proof.
  split.
  - apply (proj1 (initConfigDir_outcomes (mkFs Directory None None None) _)).
    discriminate.
  - intros H.
    apply (proj1 (proj2 (proj2 (proj2 (initConfigDir_outcomes _ _))))) in H.
    destruct H as (_ & _ & _ & _ & H & _). discriminate H.
Defined.

End PluginTheorems.
